(** * scripts/youtube-transcript-extractor.py

    A shallow embedding of the transcript-to-outline script: the
    identifier extractor, the caption fetch with its fallback, the text
    normaliser and the Markdown outline formatter, followed by the
    properties proved about them.

    Python strings are sequences of Unicode code points; they are modelled
    as lists of [N].  The part of the Unicode character database that the
    script consults outside ASCII (whitespace, alphanumerics, case
    mappings) is not part of the repository and is taken as a parameter,
    the class [UnicodeDB]. *)

From Stdlib Require Import String Ascii.
From Stdlib Require Import List NArith ZArith Arith Bool Lia ZifyNat.
From Stdlib Require Import Sorting.Sorted Sorting.Permutation.
From Stdlib Require Decimal DecimalString.
Import ListNotations.

(** ** Strings *)

Definition char := N.
Bind Scope N_scope with char.
Definition str := list char.

(** [py "..."] is the Python string with the given (ASCII) characters. *)
Definition py (s : string) : str := map N_of_ascii (list_ascii_of_string s).

(** A single character, [ch "a"]. *)
Definition ch (a : ascii) : char := N_of_ascii a.

(** The newline character, written [\n] in the source. *)
Definition nl : str := [10%N].

Definition char_eqb (a b : char) : bool := N.eqb a b.

Fixpoint str_eqb (a b : str) : bool :=
  match a, b with
  | [], [] => true
  | x :: a', y :: b' => char_eqb x y && str_eqb a' b'
  | _, _ => false
  end.

(** [s.startswith(w)] *)
Fixpoint starts_with (w s : str) : bool :=
  match w, s with
  | [], _ => true
  | c :: w', x :: s' => char_eqb x c && starts_with w' s'
  | _ :: _, [] => false
  end.

(** [w in s]: [w] occurs in [s] as a substring. *)
Fixpoint contains (w s : str) : bool :=
  starts_with w s ||
  match s with
  | [] => false
  | _ :: s' => contains w s'
  end.

(** Number of positions of [s] at which [w] occurs. *)
Fixpoint occurrences (w s : str) : nat :=
  (if starts_with w s then 1 else 0) +
  match s with
  | [] => 0
  | _ :: s' => occurrences w s'
  end.

(** [sep.join(parts)] *)
Fixpoint join (sep : str) (parts : list str) : str :=
  match parts with
  | [] => []
  | [p] => p
  | p :: rest => p ++ sep ++ join sep rest
  end.

(** [str(n)] for a non-negative integer, as an f-string field prints it. *)
Definition str_of_nat (n : nat) : str :=
  py (DecimalString.NilEmpty.string_of_uint (Nat.to_uint n)).

(** ** The Unicode character database *)

Definition is_ascii (c : char) : bool := (c <? 128)%N.

Definition in_range (lo hi c : char) : bool := ((lo <=? c) && (c <=? hi))%N.

Definition ascii_isdigit (c : char) : bool := in_range 48 57 c.
Definition ascii_isupper (c : char) : bool := in_range 65 90 c.
Definition ascii_islower (c : char) : bool := in_range 97 122 c.

(** ASCII whitespace as CPython classifies it: TAB, LF, VT, FF, CR, the
    four separators FS, GS, RS, US, and the space. *)
Definition ascii_isspace (c : char) : bool :=
  in_range 9 13 c || in_range 28 31 c || char_eqb c 32.

Definition ascii_isalnum (c : char) : bool :=
  ascii_isdigit c || ascii_isupper c || ascii_islower c.

Definition ascii_lower (c : char) : char :=
  if ascii_isupper c then (c + 32)%N else c.

Definition ascii_upper (c : char) : char :=
  if ascii_islower c then (c - 32)%N else c.

(** What the interpreter's Unicode tables answer outside ASCII. The case
    mappings work on whole strings, since they can change the length of a
    string and depend on the context of a character. *)
Class UnicodeDB := {
  uni_isspace : char -> bool;
  uni_isalnum : char -> bool;
  uni_lower : str -> str;
  uni_capitalize : str -> str
}.

(** A database that knows no whitespace, no letters and no case outside
    ASCII; used to run the definitions on concrete inputs. *)
Definition plain_db : UnicodeDB := {|
  uni_isspace := fun _ => false;
  uni_isalnum := fun _ => false;
  uni_lower := fun s => map ascii_lower s;
  uni_capitalize := fun s =>
    match s with
    | [] => []
    | c :: s' => ascii_upper c :: map ascii_lower s'
    end
|}.

Section Classes.
Context {U : UnicodeDB}.

(** [c.isspace()], also the class [\s] of a str pattern. *)
Definition isspace (c : char) : bool :=
  if is_ascii c then ascii_isspace c else uni_isspace c.

(** The class [\w] of a str pattern: alphanumerics and the underscore. *)
Definition isword (c : char) : bool :=
  if is_ascii c then ascii_isalnum c || char_eqb c 95 else uni_isalnum c.

(** [s.lower()] *)
Definition lower (s : str) : str :=
  if forallb is_ascii s then map ascii_lower s else uni_lower s.

(** [s.capitalize()]: first character upper-cased, the rest lower-cased. *)
Definition capitalize (s : str) : str :=
  if forallb is_ascii s then
    match s with
    | [] => []
    | c :: s' => ascii_upper c :: map ascii_lower s'
    end
  else uni_capitalize s.

(** [s.strip()] *)
Fixpoint lstrip (s : str) : str :=
  match s with
  | [] => []
  | c :: s' => if isspace c then lstrip s' else s
  end.

Definition rstrip (s : str) : str := rev (lstrip (rev s)).

Definition strip (s : str) : str := rstrip (lstrip s).

End Classes.

(** ** Regular expressions

    The fragment of [re] the script uses.  Every repetition in its
    patterns is over a single-character class, so repetition is only
    provided for classes.  Matching is by backtracking in continuation
    passing style, alternatives tried in the order of the engine: the left
    branch of [|] first, a greedy repetition longest first, a lazy one
    shortest first. *)

Inductive regex :=
| Chr (c : char)                   (* a literal character *)
| Cls (p : char -> bool)           (* one character of a class *)
| Cat (r1 r2 : regex)              (* r1 r2 *)
| Alt (r1 r2 : regex)              (* r1|r2 *)
| Plus (p : char -> bool)          (* X+  *)
| Star (p : char -> bool)          (* X*  *)
| LazyStar (p : char -> bool)      (* X*? *)
| Grp (r : regex)                  (* (r), the capturing group *)
| Bnd                              (* \b *)
| Eps.                             (* the empty pattern *)

(** A literal word, e.g. [youtu\.be/]. *)
Fixpoint Lit (w : str) : regex :=
  match w with
  | [] => Eps
  | c :: w' => Cat (Chr c) (Lit w')
  end.

(** What a successful match reports: the text of group 1, if the group
    took part, and the input left after the match. *)
Definition found := (option str * str)%type.

Section Matcher.
Context {U : UnicodeDB}.

(** A position in the subject: the character before it and what follows. *)
Definition cont := option char -> str -> option str -> option found.

Definition is_word_at (c : option char) : bool :=
  match c with
  | Some x => isword x
  | None => false
  end.

Fixpoint greedy (p : char -> bool) (prev : option char) (s : str)
    (cap : option str) (k : cont) : option found :=
  match s with
  | x :: s' =>
      if p x then
        match greedy p (Some x) s' cap k with
        | Some f => Some f
        | None => k prev s cap
        end
      else k prev s cap
  | [] => k prev s cap
  end.

Fixpoint lazy (p : char -> bool) (prev : option char) (s : str)
    (cap : option str) (k : cont) : option found :=
  match k prev s cap with
  | Some f => Some f
  | None =>
      match s with
      | x :: s' => if p x then lazy p (Some x) s' cap k else None
      | [] => None
      end
  end.

Fixpoint run (r : regex) (prev : option char) (s : str)
    (cap : option str) (k : cont) : option found :=
  match r with
  | Chr c =>
      match s with
      | x :: s' => if char_eqb x c then k (Some x) s' cap else None
      | [] => None
      end
  | Cls p =>
      match s with
      | x :: s' => if p x then k (Some x) s' cap else None
      | [] => None
      end
  | Cat r1 r2 =>
      run r1 prev s cap (fun prev' s' cap' => run r2 prev' s' cap' k)
  | Alt r1 r2 =>
      match run r1 prev s cap k with
      | Some f => Some f
      | None => run r2 prev s cap k
      end
  | Plus p =>
      match s with
      | x :: s' => if p x then greedy p (Some x) s' cap k else None
      | [] => None
      end
  | Star p => greedy p prev s cap k
  | LazyStar p => lazy p prev s cap k
  | Grp r1 =>
      run r1 prev s cap
        (fun prev' s' _ =>
           k prev' s' (Some (firstn (length s - length s') s)))
  | Bnd =>
      if xorb (is_word_at prev) (is_word_at (hd_error s))
      then k prev s cap else None
  | Eps => k prev s cap
  end.

(** The pattern matched at one position. *)
Definition match_here (r : regex) (prev : option char) (s : str)
    : option found :=
  run r prev s None (fun _ s' cap => Some (cap, s')).

(** [re.search(r, s)]: the match at the leftmost position that has one.
    The result is the text of group 1. *)
Fixpoint search_from (r : regex) (prev : option char) (s : str)
    : option (option str) :=
  match match_here r prev s with
  | Some (cap, _) => Some cap
  | None =>
      match s with
      | [] => None
      | x :: s' => search_from r (Some x) s'
      end
  end.

Definition re_search (r : regex) (s : str) : option (option str) :=
  search_from r None s.

(** The pieces of a subject scanned for successive matches, as
    [re.sub], [re.split] and [re.findall] do: a character that no match
    covers, or the text of a match.  After a match the scan resumes where
    the match ended; [skip] counts the characters of the current match
    still to pass.  No pattern the script scans with matches the empty
    string (lemma [scanned_patterns_consume]); an empty match is treated
    as no match at that position. *)
Inductive piece :=
| Gap (c : char)
| Hit (w : str).

Fixpoint scan (r : regex) (prev : option char) (s : str) (skip : nat)
    : list piece :=
  match s with
  | [] => []
  | x :: s' =>
      match skip with
      | S n => scan r (Some x) s' n
      | O =>
          match match_here r prev s with
          | Some (_, rest) =>
              match length s - length rest with
              | S n => Hit (firstn (S n) s) :: scan r (Some x) s' n
              | O => Gap x :: scan r (Some x) s' 0
              end
          | None => Gap x :: scan r (Some x) s' 0
          end
      end
  end.

Definition pieces (r : regex) (s : str) : list piece := scan r None s 0.

(** [re.sub(r, repl, s)] for a replacement without group references. *)
Definition re_sub (r : regex) (repl : str) (s : str) : str :=
  flat_map (fun p => match p with Gap c => [c] | Hit _ => repl end)
           (pieces r s).

(** [re.findall(r, s)] for a pattern without groups. *)
Definition re_findall (r : regex) (s : str) : list str :=
  flat_map (fun p => match p with Gap _ => [] | Hit w => [w] end)
           (pieces r s).

(** [re.split(r, s)] for a pattern without groups: the texts between the
    matches, the empty ones included. *)
Fixpoint split_pieces (ps : list piece) (cur : str) : list str :=
  match ps with
  | [] => [cur]
  | Gap c :: ps' => split_pieces ps' (cur ++ [c])
  | Hit _ :: ps' => cur :: split_pieces ps' []
  end.

Definition re_split (r : regex) (s : str) : list str :=
  split_pieces (pieces r s) [].

End Matcher.

(** ** extract_video_id *)

(** The class [[^&\n?#]]. *)
Definition id_char (c : char) : bool :=
  negb (char_eqb c (ch "&") || char_eqb c 10 || char_eqb c (ch "?")
        || char_eqb c (ch "#")).

(** The class [.], every character but the newline. *)
Definition dot (c : char) : bool := negb (char_eqb c 10).

Definition watch_v : str := py "youtube.com/watch?v=".
Definition youtu_be : str := py "youtu.be/".
Definition embed : str := py "youtube.com/embed/".
Definition watch_q : str := py "youtube.com/watch?".

(** [(?:youtube\.com/watch\?v=|youtu\.be/|youtube\.com/embed/)([^&\n?#]+)] *)
Definition pattern1 : regex :=
  Cat (Alt (Lit watch_v) (Alt (Lit youtu_be) (Lit embed)))
      (Grp (Plus id_char)).

(** [youtube\.com/watch\?.*v=([^&\n?#]+)] *)
Definition pattern2 : regex :=
  Cat (Lit watch_q) (Cat (Star dot) (Cat (Lit (py "v=")) (Grp (Plus id_char)))).

Definition patterns : list regex := [pattern1; pattern2].

Section Extract.
Context {U : UnicodeDB}.

(** [match.group(1)]; both patterns end in their group, so a match
    always carries it. *)
Definition group1 (m : option str) : str :=
  match m with
  | Some g => g
  | None => []
  end.

(** The loop over the patterns: the group of the first pattern that
    matches anywhere in the url. *)
Fixpoint first_match (ps : list regex) (url : str) : option str :=
  match ps with
  | [] => None
  | pattern :: ps' =>
      match re_search pattern url with
      | Some m => Some (group1 m)
      | None => first_match ps' url
      end
  end.

Definition extract_video_id (url : str) : str :=
  match first_match patterns url with
  | Some id => id
  | None => url        (* assume the input is already a video ID *)
  end.

End Extract.

(** ** clean_transcript *)

(** Truth value of a string or [None]: false for [None] and for the empty
    string. *)
Definition truthy (t : option str) : bool :=
  match t with
  | None => false
  | Some [] => false
  | Some (_ :: _) => true
  end.

Section Clean.
Context {U : UnicodeDB}.

(** [\s+] *)
Definition whitespace_run : regex := Plus isspace.

(** [\[.*?\]] *)
Definition bracketed : regex :=
  Cat (Chr (ch "[")) (Cat (LazyStar dot) (Chr (ch "]"))).

(** [\(.*?\)] *)
Definition parenthesized : regex :=
  Cat (Chr (ch "(")) (Cat (LazyStar dot) (Chr (ch ")"))).

Definition clean_transcript (transcript : option str) : str :=
  match transcript with
  | None | Some [] => []          (* not transcript *)
  | Some t =>
      let cleaned := re_sub whitespace_run (py " ") (strip t) in
      let cleaned := re_sub bracketed [] cleaned in
      let cleaned := re_sub parenthesized [] cleaned in
      strip cleaned
  end.

End Clean.

(** ** create_blog_outline *)

(** The dictionary [word_freq]: a Python dict keeps its keys in the order
    of their first insertion, and assigning to a key that is present
    leaves it in its place. *)
Definition dict := list (str * nat).

Fixpoint dict_get (d : dict) (key : str) (default : nat) : nat :=
  match d with
  | [] => default
  | (k, v) :: d' => if str_eqb k key then v else dict_get d' key default
  end.

Fixpoint dict_set (d : dict) (key : str) (value : nat) : dict :=
  match d with
  | [] => [(key, value)]
  | (k, v) :: d' =>
      if str_eqb k key then (k, value) :: d'
      else (k, v) :: dict_set d' key value
  end.

(** [sorted(items, key=lambda x: x[1], reverse=True)].  The built-in is
    documented to be stable, also under [reverse=True]; this is a stable
    insertion sort into descending order of the count.  [sorted_contract]
    below is the documented behaviour, and the sort is proved further down
    to be the only function that has it. *)
Fixpoint insert_desc (x : str * nat) (l : list (str * nat))
    : list (str * nat) :=
  match l with
  | [] => [x]
  | y :: l' =>
      if snd y <=? snd x then x :: l else y :: insert_desc x l'
  end.

Definition sorted_by_count (items : list (str * nat)) : list (str * nat) :=
  fold_right insert_desc [] items.

Definition has_count (c : nat) (x : str * nat) : bool := snd x =? c.

Definition count_desc (x y : str * nat) : Prop := snd y <= snd x.

Record sorted_contract (srt : list (str * nat) -> list (str * nat))
    : Prop := {
  srt_perm : forall l, Permutation l (srt l);
  srt_sorted : forall l, StronglySorted count_desc (srt l);
  srt_stable : forall l c, filter (has_count c) (srt l) =
                           filter (has_count c) l
}.

Section Outline.
Context {U : UnicodeDB}.

(** [[.!?]+] *)
Definition sentence_end : regex :=
  Plus (fun c => char_eqb c (ch ".") || char_eqb c (ch "!")
                 || char_eqb c (ch "?")).

(** [\b\w+\b] *)
Definition word_pattern : regex := Cat Bnd (Cat (Plus isword) Bnd).

(** The sentences: the transcript split at the sentence ends, each part
    stripped, the parts that strip to nothing dropped. *)
Definition sentences_of (transcript : str) : list str :=
  map strip
      (filter (fun s => truthy (Some (strip s)))
              (re_split sentence_end transcript)).

(** The grouping loop.  [n] is [len(sentences)], [i] the index of the
    sentence at the head of [rest]. *)
Fixpoint group_loop (n i : nat) (rest : list str)
    (paragraphs : list str) (current_paragraph : list str) : list str :=
  match rest with
  | [] => paragraphs
  | sentence :: rest' =>
      let current_paragraph := current_paragraph ++ [sentence] in
      if (4 <=? length current_paragraph) || (i =? n - 1)
      then group_loop n (S i) rest'
             (paragraphs ++ [join (py " ") current_paragraph]) []
      else group_loop n (S i) rest' paragraphs current_paragraph
  end.

Definition paragraphs_of (sentences : list str) : list str :=
  group_loop (length sentences) 0 sentences [] [].

(** The same loop, keeping each group as the list of its sentences
    instead of joining it; [paragraphs_of] is the join of these groups
    (lemma [paragraphs_of_groups]). *)
Fixpoint group_loop_lists (n i : nat) (rest : list str)
    (groups : list (list str)) (current_paragraph : list str)
    : list (list str) :=
  match rest with
  | [] => groups
  | sentence :: rest' =>
      let current_paragraph := current_paragraph ++ [sentence] in
      if (4 <=? length current_paragraph) || (i =? n - 1)
      then group_loop_lists n (S i) rest' (groups ++ [current_paragraph]) []
      else group_loop_lists n (S i) rest' groups current_paragraph
  end.

Definition groups_of (sentences : list str) : list (list str) :=
  group_loop_lists (length sentences) 0 sentences [] [].

(** The head of the document, up to the section blocks. *)
Definition outline_head (video_url : str) (paragraphs : list str) : str :=
  py "# Video Transcript Analysis and Outline" ++ nl ++
  nl ++
  py "**Source Video:** " ++ video_url ++ nl ++
  nl ++
  py "## Introduction" ++ nl ++
  nl ++
  match paragraphs with
  | p :: _ => p
  | [] => py "No transcript content available."
  end ++ nl ++
  nl ++
  py "## Main Content Points" ++ nl ++
  nl.

(** One block of the loop over [enumerate(paragraphs[1:], 1)]. *)
Definition section_block (i : nat) (paragraph : str) : str :=
  py "### Section " ++ str_of_nat i ++ nl ++ nl ++ paragraph ++ nl ++ nl.

Fixpoint section_loop (i : nat) (ps : list str) : list str :=
  match ps with
  | [] => []
  | paragraph :: ps' => section_block i paragraph :: section_loop (S i) ps'
  end.

(** The section blocks of a paragraph list, in the order they are
    appended to the document. *)
Definition section_blocks (paragraphs : list str) : list str :=
  section_loop 1 (tl paragraphs).

Definition takeaways_head : str :=
  py "## Key Takeaways" ++ nl ++
  nl ++
  py "Based on the transcript analysis, the main points discussed include:"
  ++ nl ++
  nl.

(** The words of the frequency pass. *)
Definition words_of (transcript : str) : list str :=
  re_findall word_pattern (lower transcript).

(** The counting loop. *)
Definition count_word (word_freq : dict) (word : str) : dict :=
  if 4 <? length word
  then dict_set word_freq word (dict_get word_freq word 0 + 1)
  else word_freq.

Definition word_freq_of (words : list str) : dict :=
  fold_left count_word words [].

Definition bullet (word : str) (freq : nat) : str :=
  py "- **" ++ capitalize word ++ py "** (mentioned " ++ str_of_nat freq
  ++ py " times)" ++ nl.

Definition outline_tail : str :=
  nl ++
  py "## Conclusion" ++ nl ++
  nl ++
  py "This video covers various topics as outlined above. The transcript provides insights into the speaker's main points and discussion themes."
  ++ nl ++
  nl ++
  py "---" ++ nl ++
  nl ++
  py "*Note: This outline was automatically generated from the video transcript. Some context and nuances may be lost in the automated analysis.*"
  ++ nl.

Section Sorted.
(** The implementation of the built-in [sorted]. *)
Variable sorted : list (str * nat) -> list (str * nat).

(** [sorted(word_freq.items(), ...)[:10]] *)
Definition top_words_with (transcript : str) : list (str * nat) :=
  firstn 10 (sorted (word_freq_of (words_of transcript))).

(** The entries whose bullet is emitted, in the order of emission. *)
Definition takeaways_with (transcript : str) : list (str * nat) :=
  filter (fun wf => 2 <? snd wf) (top_words_with transcript).

Definition bullets_with (transcript : str) : list str :=
  map (fun wf => bullet (fst wf) (snd wf)) (takeaways_with transcript).

Definition create_blog_outline_with (transcript video_url : str) : str :=
  let paragraphs := paragraphs_of (sentences_of transcript) in
  outline_head video_url paragraphs
  ++ concat (section_blocks paragraphs)
  ++ takeaways_head
  ++ concat (bullets_with transcript)
  ++ outline_tail.

End Sorted.

Definition top_words := top_words_with sorted_by_count.
Definition takeaways := takeaways_with sorted_by_count.
Definition bullets := bullets_with sorted_by_count.
Definition create_blog_outline := create_blog_outline_with sorted_by_count.

End Outline.

(** ** The interpreter under create_blog_outline

    Two things [create_blog_outline] takes from the interpreter can
    differ from one run to the next without the program saying so: the
    hash of a string, which is salted anew for every process, and with it
    the place of every key inside a dict; and the algorithm behind
    [sorted].  This is the dict as the interpreter keeps it, the sort as
    it runs under [reverse=True], and the function once more with both
    made explicit. *)

(** An entry of a dict: the hash of the key as it was when the key came
    in, the key and the value.  A dict keeps its entries in the order of
    insertion and finds them through the hash. *)
Record entry := { e_hash : N; e_key : str; e_value : nat }.

Definition hdict := list entry.

Section Hashing.
(** [hash(s)] in the running process. *)
Variable str_hash : str -> N.

(** The test of a lookup: the stored hash first, then the key itself. *)
Definition entry_matches (key : str) (e : entry) : bool :=
  N.eqb (e_hash e) (str_hash key) && str_eqb (e_key e) key.

(** [d.get(key, default)] *)
Fixpoint hdict_get (d : hdict) (key : str) (default : nat) : nat :=
  match d with
  | [] => default
  | e :: d' =>
      if entry_matches key e then e_value e else hdict_get d' key default
  end.

(** [d[key] = value]: the entry of the key gets the value, a key not yet
    there gets a new entry behind the others. *)
Fixpoint hdict_set (d : hdict) (key : str) (value : nat) : hdict :=
  match d with
  | [] => [ {| e_hash := str_hash key; e_key := key; e_value := value |} ]
  | e :: d' =>
      if entry_matches key e
      then {| e_hash := e_hash e; e_key := e_key e; e_value := value |} :: d'
      else e :: hdict_set d' key value
  end.

(** [d.items()]: the entries in their order. *)
Definition hdict_items (d : hdict) : list (str * nat) :=
  map (fun e => (e_key e, e_value e)) d.

(** The counting loop on that dict. *)
Definition count_word_hashed (word_freq : hdict) (word : str) : hdict :=
  if 4 <? length word
  then hdict_set word_freq word (hdict_get word_freq word 0 + 1)
  else word_freq.

Definition word_freq_hashed (words : list str) : hdict :=
  fold_left count_word_hashed words [].

End Hashing.

(** [sorted(items, key=..., reverse=True)] as the interpreter does it: the
    list is reversed, sorted into ascending order by a stable sort, and
    reversed again, which keeps equal keys in their first order. *)
Fixpoint insert_asc (x : str * nat) (l : list (str * nat))
    : list (str * nat) :=
  match l with
  | [] => [x]
  | y :: l' =>
      if snd x <=? snd y then x :: l else y :: insert_asc x l'
  end.

Definition sorted_ascending (items : list (str * nat)) : list (str * nat) :=
  fold_right insert_asc [] items.

Definition sorted_reversed (items : list (str * nat)) : list (str * nat) :=
  rev (sorted_ascending (rev items)).

Section Runtime.
Context {U : UnicodeDB}.
Variable str_hash : str -> N.
Variable sorted : list (str * nat) -> list (str * nat).

(** [create_blog_outline] in a process with the string hash [str_hash]
    and the sort [sorted]. *)
Definition create_blog_outline_on (transcript video_url : str) : str :=
  let paragraphs := paragraphs_of (sentences_of transcript) in
  let words := words_of transcript in
  let word_freq := word_freq_hashed str_hash words in
  let top_words := firstn 10 (sorted (hdict_items word_freq)) in
  outline_head video_url paragraphs
  ++ concat (section_blocks paragraphs)
  ++ takeaways_head
  ++ concat (map (fun wf => bullet (fst wf) (snd wf))
                 (filter (fun wf => 2 <? snd wf) top_words))
  ++ outline_tail.

End Runtime.

(** Two string hashes to run the definitions with: one under which all
    strings collide, and the sum of the code points. *)
Definition hash_zero : str -> N := fun _ => 0%N.

Definition hash_sum : str -> N := fun s => fold_right N.add 0%N s.

(** The entries of a dict with the pairs [d], under a string hash. *)
Definition hashed (str_hash : str -> N) (d : dict) : hdict :=
  map (fun kv => {| e_hash := str_hash (fst kv); e_key := fst kv;
                    e_value := snd kv |}) d.

(** ** get_transcript and main

    The caption fetcher, standard output and the output file are outside
    the program.  A run is modelled by the list of the events it causes,
    in order; the fetcher is an oracle whose answer may depend on
    everything that happened before the call.  Opening and writing the
    output file can raise as well (a missing directory, a refused
    permission): the file system is a second oracle, and [main] does not
    catch what it raises.  Printing is taken to succeed. *)

(** One caption fragment; only its text is read. *)
Record snippet := { text : str }.

(** [YouTubeTranscriptApi().fetch(...)] returns the fragments or raises;
    an exception is kept as the text it prints as. *)
Inductive fetch_result :=
| Fetched (transcript_list : list snippet)
| Raised (e : str).

(** [languages] is [None] where the call leaves the argument out; an
    [EWrite] is a file opened, written and closed. *)
Inductive event :=
| EFetch (video_id : str) (languages : option (list str))
| EPrint (line : str)
| EWrite (path content : str).

Definition oracle := list event -> str -> option (list str) -> fetch_result.

(** What the file system answers to [open(path, 'w')] and the write of
    [content]: [None] when the file is written, the exception otherwise,
    kept as the text it prints as. *)
Definition disk := list event -> str -> str -> option str.

(** How a statement ends: normally, or with an exception nobody
    caught. *)
Inductive outcome (A : Type) :=
| Done (a : A)
| Uncaught (e : str).
Arguments Done {A} a.
Arguments Uncaught {A} e.

(** A computation reads the history so far and extends it. *)
Definition io (A : Type) := list event -> A * list event.

Definition ret {A} (a : A) : io A := fun h => (a, h).

Definition bind {A B} (m : io A) (f : A -> io B) : io B :=
  fun h => let (a, h') := m h in f a h'.

Notation "x <- m ;; k" := (bind m (fun x => k))
  (at level 61, m at next level, right associativity).
Notation "m ;; k" := (bind m (fun _ => k))
  (at level 61, right associativity).

Definition print (line : str) : io unit :=
  fun h => (tt, h ++ [EPrint line]).

Section Pipeline.
Context {U : UnicodeDB}.
Variable fetcher : oracle.
Variable storage : disk.

(** [with open(path, 'w', encoding='utf-8') as f: f.write(content)] *)
Definition write_file (path content : str) : io (outcome unit) :=
  fun h =>
    match storage h path content with
    | None => (Done tt, h ++ [EWrite path content])
    | Some e => (Uncaught e, h)
    end.

Definition fetch (video_id : str) (languages : option (list str))
    : io fetch_result :=
  fun h => (fetcher h video_id languages, h ++ [EFetch video_id languages]).

Definition full_transcript (transcript_list : list snippet) : str :=
  join (py " ") (map text transcript_list).

Definition get_transcript (video_id : str) : io (option str) :=
  r <- fetch video_id (Some [py "en"]) ;;
  match r with
  | Fetched transcript_list => ret (Some (full_transcript transcript_list))
  | Raised _ =>
      r2 <- fetch video_id None ;;
      match r2 with
      | Fetched transcript_list =>
          ret (Some (full_transcript transcript_list))
      | Raised e2 =>
          print (py "Error getting transcript: " ++ e2) ;;
          ret None
      end
  end.

Definition video_url : str := py "https://www.youtube.com/watch?v=5zFUBD2rRis".

Definition output_file : str :=
  py "/Users/cloudaistudio/Documents/EVERJUST PROJECTS/JUST-WORK/youtube_transcript_outline.md".

Definition rule : str := repeat (ch "=") 50.

Definition main : io (outcome unit) :=
  print (py "Extracting transcript from: " ++ video_url) ;;
  let video_id := extract_video_id video_url in
  print (py "Video ID: " ++ video_id) ;;
  print (py "Fetching transcript...") ;;
  transcript <- get_transcript video_id ;;
  if negb (truthy transcript) then
    print (py "Could not retrieve transcript. The video may not have captions available.") ;;
    ret (Done tt)
  else
    let cleaned_transcript := clean_transcript transcript in
    print (py "Transcript length: "
           ++ str_of_nat (length cleaned_transcript) ++ py " characters") ;;
    print (py "Creating blog-style outline...") ;;
    let outline := create_blog_outline cleaned_transcript video_url in
    saved <- write_file output_file outline ;;
    match saved with
    | Uncaught e => ret (Uncaught e)   (* nothing catches it: the run ends *)
    | Done _ =>
        print (py "Blog outline saved to: " ++ output_file) ;;
        print (nl ++ rule) ;;
        print (py "BLOG OUTLINE PREVIEW:") ;;
        print rule ;;
        print (if 1000 <? length outline
               then firstn 1000 outline ++ py "..." else outline) ;;
        ret (Done tt)
    end.

End Pipeline.

(** The files a run has written. *)
Definition written (h : list event) : list (str * str) :=
  flat_map (fun e => match e with EWrite p c => [(p, c)] | _ => [] end) h.

(** The fetch requests of a run. *)
Definition fetches (h : list event) : list (str * option (list str)) :=
  flat_map (fun e => match e with EFetch v l => [(v, l)] | _ => [] end) h.

(** ** The vocabulary of the properties *)

(** The position reached after a word has been consumed. *)
Definition prev_after (w : str) (prev : option char) : option char :=
  fold_left (fun _ c => Some c) w prev.

(** A continuation never reports more input than it was given. *)
Definition within (k : cont) : Prop :=
  forall prev s cap f, k prev s cap = Some f -> length (snd f) <= length s.

(** The three url shapes of the first pattern. *)
Definition markers : list str := [watch_v; youtu_be; embed].

(** A character of an identifier: alphanumeric, [_] or [-]. *)
Definition ident_char (c : char) : bool :=
  ascii_isalnum c || char_eqb c (ch "_") || char_eqb c (ch "-").

(** What follows the identifier in a url: nothing, or the rest of the
    query or the fragment, which begins with [&], [?], [#] (or a line
    break). *)
Definition ends_ident (suf : str) : bool :=
  match suf with
  | [] => true
  | c :: _ => negb (id_char c)
  end.

(** Every group closed by the loop holds between one and four
    sentences. *)
Definition group_ok (g : list str) : Prop := 1 <= length g <= 4.

(** The quotient, rounded up. *)
Definition ceil_div (a b : Z) : Z := ((a + b - 1) / b)%Z.

(** [x] stands before [y] in a list. *)
Inductive precedes {A : Type} (x y : A) : list A -> Prop :=
| precedes_here l : In y l -> precedes x y (x :: l)
| precedes_later z l : precedes x y l -> precedes x y (z :: l).

(** The place of the first occurrence of a word in a list of words. *)
Fixpoint index_of (w : str) (l : list str) : nat :=
  match l with
  | [] => 0
  | x :: l' => if str_eqb x w then 0 else S (index_of w l')
  end.

(** The keys of the dictionary after one more word: a new key goes to the
    end, a known key stays where it is. *)
Definition add_key (keys : list str) (w : str) : list str :=
  if existsb (fun k => str_eqb k w) keys then keys else keys ++ [w].

Definition note_word (keys : list str) (w : str) : list str :=
  if 4 <? length w then add_key keys w else keys.

(** How often a word occurs in a list of words. *)
Definition tally (w : str) (ws : list str) : nat :=
  length (filter (fun x => str_eqb x w) ws).

(** The request for the preferred language. *)
Definition preferred : option (list str) := Some [py "en"].

(** What [main] has printed when it calls [get_transcript]. *)
Definition main_prologue : list event :=
  [EPrint (py "Extracting transcript from: " ++ video_url);
   EPrint (py "Video ID: " ++ py "5zFUBD2rRis");
   EPrint (py "Fetching transcript...")].

(** A fetcher that has nothing in the preferred language and an empty
    list of fragments otherwise. *)
Definition empty_fallback : oracle :=
  fun _ _ languages =>
    match languages with
    | Some _ => Raised (py "NoTranscriptFound")
    | None => Fetched []
    end.

(** A file system that takes every write, and one without the directory
    of the output file. *)
Definition disk_ok : disk := fun _ _ _ => None.

Definition disk_missing : disk :=
  fun _ _ _ => Some (py "FileNotFoundError").

(** What [main] has printed, after the fetches [fs], when it opens the
    output file for a transcript that cleans to [cleaned]. *)
Definition before_write (fs : list event) (cleaned : str) : list event :=
  main_prologue ++ fs ++
  [EPrint (py "Transcript length: " ++ str_of_nat (length cleaned)
           ++ py " characters");
   EPrint (py "Creating blog-style outline...")].

(** What it prints after the file [outline] is written. *)
Definition after_write (outline : str) : list event :=
  [EPrint (py "Blog outline saved to: " ++ output_file);
   EPrint (nl ++ rule);
   EPrint (py "BLOG OUTLINE PREVIEW:");
   EPrint rule;
   EPrint (if 1000 <? length outline
           then firstn 1000 outline ++ py "..." else outline)].

(** A fetcher that has nothing in the preferred language and two
    fragments otherwise. *)
Definition other_language : oracle :=
  fun _ _ languages =>
    match languages with
    | Some _ => Raised (py "NoTranscriptFound")
    | None => Fetched [ {| text := py "Hallo" |}; {| text := py "Welt" |} ]
    end.

(** [a] is [b] with some of its elements left out. *)
Inductive subseq {A : Type} : list A -> list A -> Prop :=
| subseq_nil : subseq [] []
| subseq_skip x a b : subseq a b -> subseq a (x :: b)
| subseq_keep x a b : subseq a b -> subseq (x :: a) (x :: b).

(** The characters a scan leaves in place, which is what [re.sub] with
    the empty replacement returns. *)
Definition kept (ps : list piece) : str :=
  flat_map (fun p => match p with Gap c => [c] | Hit _ => [] end) ps.

(** Some [o] in the string has a [c] somewhere after it: the string still
    holds a span from an opening to a closing character. *)
Fixpoint has_span (o c : char) (s : str) : bool :=
  match s with
  | [] => false
  | x :: s' => (char_eqb x o && existsb (char_eqb c) s') || has_span o c s'
  end.

(** [o.*?c], the shape of the two annotation patterns. *)
Definition span_pattern (o c : char) : regex :=
  Cat (Chr o) (Cat (LazyStar dot) (Chr c)).

(** What a scan may hold: gaps with [PG], hits with [PH]. *)
Definition piece_ok (PG : char -> Prop) (PH : str -> Prop) (p : piece)
    : Prop :=
  match p with
  | Gap c => PG c
  | Hit w => PH w
  end.

(** The class [[.!?]] of the sentence ends. *)
Definition is_sentence_end (c : char) : bool :=
  char_eqb c (ch ".") || char_eqb c (ch "!") || char_eqb c (ch "?").

(** The group of a match: a non-empty run of [[^&\n?#]] inside the
    subject. *)
Definition group_inside (s : str) (f : found) : Prop :=
  exists a g r, s = a ++ g ++ r /\ g <> [] /\ forallb id_char g = true /\
                fst f = Some g.

(** * Properties *)

(** ** Strings and the matcher *)

Lemma char_eqb_eq (a b : char) : char_eqb a b = true <-> a = b.
Proof. apply N.eqb_eq. Qed.

Lemma str_eqb_eq (a b : str) : str_eqb a b = true <-> a = b.
Proof.
  revert b; induction a as [|x a IH]; intros [|y b]; simpl;
    try (split; [discriminate | congruence]); try tauto.
  rewrite andb_true_iff, char_eqb_eq, IH. split.
  - intros [-> ->]; reflexivity.
  - intros E; injection E; auto.
Qed.

Lemma str_eqb_refl (a : str) : str_eqb a a = true.
Proof. apply str_eqb_eq; reflexivity. Qed.

Lemma starts_with_prefix (a b s : str) :
  starts_with (a ++ b) s = true -> starts_with a s = true.
Proof.
  revert s; induction a as [|c a IH]; intros [|x s]; simpl; try congruence.
  rewrite !andb_true_iff. intros [E H]; split; [exact E | apply IH, H].
Qed.

Lemma contains_here (w s : str) :
  contains w s = false -> starts_with w s = false.
Proof. destruct s; simpl; rewrite orb_false_iff; tauto. Qed.

Lemma contains_tail (w : str) (x : char) (s : str) :
  contains w (x :: s) = false -> contains w s = false.
Proof. simpl; rewrite orb_false_iff; tauto. Qed.

Lemma contains_suffix (w p1 p2 : str) :
  contains w (p1 ++ p2) = false -> contains w p2 = false.
Proof.
  induction p1 as [|x p1 IH]; simpl app; [tauto|].
  intros H; apply IH, (contains_tail _ _ _ H).
Qed.

(** A word all of whose characters differ from [y] cannot run across the
    place where a [y] stands. *)
Lemma starts_with_before (y : char) (w p Y : str) :
  forallb (fun c => negb (char_eqb y c)) w = true ->
  starts_with w (p ++ y :: Y) = true -> starts_with w p = true.
Proof.
  revert p; induction w as [|c w IH]; intros p Hw H; [reflexivity|].
  simpl in Hw; apply andb_true_iff in Hw as [Hc Hw].
  destruct p as [|x p]; simpl in *.
  - apply andb_true_iff in H as [H _]. rewrite H in Hc; discriminate.
  - apply andb_true_iff in H as [-> H]. simpl. apply IH; assumption.
Qed.

Lemma starts_with_tail_before (y : char) (w : str) (x : char) (p Y : str) :
  forallb (fun c => negb (char_eqb y c)) (tl w) = true ->
  starts_with w ((x :: p) ++ y :: Y) = true ->
  starts_with w (x :: p) = true.
Proof.
  destruct w as [|c w]; [reflexivity|]. cbn [tl app starts_with].
  intros Hw H. apply andb_true_iff in H as [-> H].
  apply (starts_with_before y w p Y Hw H).
Qed.

Section MatcherFacts.
Context {U : UnicodeDB}.

Lemma run_Lit (w : str) prev s cap (k : cont) :
  run (Lit w) prev s cap k =
  if starts_with w s
  then k (prev_after w prev) (skipn (length w) s) cap
  else None.
Proof.
  revert prev s; induction w as [|c w IH]; intros prev s; [reflexivity|].
  destruct s as [|x s]; [reflexivity|]. cbn [Lit run starts_with].
  destruct (char_eqb x c) eqn:E; [|reflexivity].
  apply char_eqb_eq in E; subst x. rewrite IH. reflexivity.
Qed.

(** A greedy repetition followed by a continuation that accepts takes
    every character of the class it can. *)
Lemma greedy_all (p : char -> bool) (w rest : str) prev cap (k : cont) f :
  forallb p w = true ->
  match rest with [] => true | c :: _ => negb (p c) end = true ->
  k (prev_after w prev) rest cap = Some f ->
  greedy p prev (w ++ rest) cap k = Some f.
Proof.
  revert prev; induction w as [|x w IH]; intros prev Hw Hrest Hk.
  - simpl in *. destruct rest as [|c rest]; [exact Hk|].
    simpl. apply negb_true_iff in Hrest. rewrite Hrest. exact Hk.
  - simpl in Hw; apply andb_true_iff in Hw as [Hx Hw].
    simpl. rewrite Hx. rewrite (IH (Some x) Hw Hrest Hk). reflexivity.
Qed.

(** The search passes over a prefix none of whose positions matches. *)
Lemma search_from_skip (r : regex) (pre rest : str) prev :
  (forall p1 p2 q, pre = p1 ++ p2 -> p2 <> [] ->
                   match_here r q (p2 ++ rest) = None) ->
  search_from r prev (pre ++ rest) =
  search_from r (prev_after pre prev) rest.
Proof.
  revert prev; induction pre as [|x pre IH]; intros prev H; [reflexivity|].
  pose proof (H [] (x :: pre) prev eq_refl ltac:(discriminate)) as E.
  cbn [app] in E |- *. cbn [search_from]. rewrite E.
  apply IH. intros p1 p2 q E' N. apply (H (x :: p1) p2 q); [|exact N].
  simpl; congruence.
Qed.

Lemma search_from_none (r : regex) (s : str) prev :
  (forall s1 s2 q, s = s1 ++ s2 -> match_here r q s2 = None) ->
  search_from r prev s = None.
Proof.
  revert prev; induction s as [|x s IH]; intros prev H.
  - simpl. rewrite (H [] [] prev eq_refl). reflexivity.
  - cbn [search_from]. rewrite (H [] (x :: s) prev eq_refl).
    apply IH. intros s1 s2 q E. apply (H (x :: s1) s2 q). simpl; congruence.
Qed.

(** Whatever a match reports comes from its continuation. *)
Lemma greedy_post (Post : found -> Prop) (p : char -> bool) (k : cont) :
  (forall prev s cap f, k prev s cap = Some f -> Post f) ->
  forall s prev cap f, greedy p prev s cap k = Some f -> Post f.
Proof.
  intros Hk. induction s as [|x s IH]; intros prev cap f; simpl.
  - apply Hk.
  - destruct (p x); [|apply Hk].
    destruct (greedy p (Some x) s cap k) eqn:E.
    + intros [= <-]. eapply IH, E.
    + apply Hk.
Qed.

Lemma lazy_post (Post : found -> Prop) (p : char -> bool) (k : cont) :
  (forall prev s cap f, k prev s cap = Some f -> Post f) ->
  forall s prev cap f, lazy p prev s cap k = Some f -> Post f.
Proof.
  intros Hk. induction s as [|x s IH]; intros prev cap f; simpl.
  - destruct (k prev [] cap) eqn:E; [|discriminate].
    intros [= <-]. eapply Hk, E.
  - destruct (k prev (x :: s) cap) eqn:E.
    + intros [= <-]. eapply Hk, E.
    + destruct (p x); [apply IH | discriminate].
Qed.

Lemma run_post (Post : found -> Prop) (r : regex) :
  forall k : cont,
    (forall prev s cap f, k prev s cap = Some f -> Post f) ->
    forall prev s cap f, run r prev s cap k = Some f -> Post f.
Proof.
  induction r as [c | p | r1 IH1 r2 IH2 | r1 IH1 r2 IH2 | p | p | p
                 | r IH | | ]; intros k Hk prev s cap f; cbn [run].
  - destruct s as [|x s]; [discriminate|].
    destruct (char_eqb x c); [apply Hk | discriminate].
  - destruct s as [|x s]; [discriminate|].
    destruct (p x); [apply Hk | discriminate].
  - apply IH1. intros prev' s' cap' f'. apply IH2, Hk.
  - destruct (run r1 prev s cap k) eqn:E.
    + intros [= <-]. eapply IH1; eassumption.
    + apply IH2, Hk.
  - destruct s as [|x s]; [discriminate|].
    destruct (p x); [apply greedy_post, Hk | discriminate].
  - apply greedy_post, Hk.
  - apply lazy_post, Hk.
  - apply IH. intros prev' s' cap' f'. apply Hk.
  - destruct (xorb _ _); [apply Hk | discriminate].
  - apply Hk.
Qed.

Lemma greedy_within (p : char -> bool) (k : cont) :
  within k -> within (fun prev s cap => greedy p prev s cap k).
Proof.
  intros Hk prev s; revert prev.
  induction s as [|x s IH]; intros prev cap f; simpl; [apply Hk|].
  destruct (p x); [|apply Hk].
  destruct (greedy p (Some x) s cap k) eqn:E; [|apply Hk].
  intros [= <-]. apply IH in E. lia.
Qed.

Lemma lazy_within (p : char -> bool) (k : cont) :
  within k -> within (fun prev s cap => lazy p prev s cap k).
Proof.
  intros Hk prev s; revert prev.
  induction s as [|x s IH]; intros prev cap f; simpl.
  - destruct (k prev [] cap) eqn:E; [|discriminate].
    intros [= <-]. apply (Hk _ _ _ _ E).
  - destruct (k prev (x :: s) cap) eqn:E.
    + intros [= <-]. apply (Hk _ _ _ _ E).
    + destruct (p x); [|discriminate]. intros H. apply IH in H. lia.
Qed.

Lemma run_within (r : regex) :
  forall k : cont, within k -> within (fun prev s cap => run r prev s cap k).
Proof.
  induction r as [c | p | r1 IH1 r2 IH2 | r1 IH1 r2 IH2 | p | p | p
                 | r IH | | ]; intros k Hk prev s cap f; cbn [run].
  - destruct s as [|x s]; [discriminate|].
    destruct (char_eqb x c); [|discriminate].
    intros H. apply Hk in H. simpl. lia.
  - destruct s as [|x s]; [discriminate|].
    destruct (p x); [|discriminate].
    intros H. apply Hk in H. simpl. lia.
  - apply (IH1 _ (IH2 _ Hk)).
  - destruct (run r1 prev s cap k) eqn:E.
    + intros [= <-]. apply (IH1 _ Hk _ _ _ _ E).
    + apply (IH2 _ Hk).
  - destruct s as [|x s]; [discriminate|].
    destruct (p x); [|discriminate].
    intros H. apply (greedy_within p k Hk) in H. simpl. lia.
  - apply (greedy_within p k Hk).
  - apply (lazy_within p k Hk).
  - intros H.
    apply (IH (fun prev' s' _ =>
                 k prev' s' (Some (firstn (length s - length s') s)))) in H;
      [exact H|].
    intros prev' s' cap' f'. apply Hk.
  - destruct (xorb _ _); [apply Hk | discriminate].
  - apply Hk.
Qed.

Lemma final_within : within (fun _ s' cap => Some (cap, s')).
Proof. intros prev s cap f [= <-]. simpl. lia. Qed.

(** A pattern that begins with a character, or with a repetition [X+],
    consumes at least that character. *)
Lemma match_here_Chr (c : char) (r : regex) prev s f :
  match_here (Cat (Chr c) r) prev s = Some f -> length (snd f) < length s.
Proof.
  unfold match_here. cbn [run].
  destruct s as [|x s]; [discriminate|].
  destruct (char_eqb x c); [|discriminate].
  intros H. apply (run_within r _ final_within) in H. simpl. lia.
Qed.

Lemma run_Plus_consumes (p : char -> bool) (k : cont) prev s cap f :
  within k -> run (Plus p) prev s cap k = Some f ->
  length (snd f) < length s.
Proof.
  intros Hk. cbn [run]. destruct s as [|x s]; [discriminate|].
  destruct (p x); [|discriminate].
  intros H. apply (greedy_within p k Hk) in H. simpl. lia.
Qed.

End MatcherFacts.

(** ** extract_video_id *)

Lemma ident_char_id_char (c : char) : ident_char c = true -> id_char c = true.
Proof.
  unfold ident_char, id_char, char_eqb, ch. cbn [N_of_ascii N_of_digits].
  intros H. apply negb_true_iff. rewrite !orb_false_iff.
  repeat split; apply N.eqb_neq; intros ->; vm_compute in H; discriminate.
Qed.

Lemma forallb_ident_id (w : str) :
  forallb ident_char w = true -> forallb id_char w = true.
Proof.
  rewrite !forallb_forall. intros H c Hc. apply ident_char_id_char, H, Hc.
Qed.

Lemma firstn_app_length (A : Type) (a b : list A) :
  firstn (length (a ++ b) - length b) (a ++ b) = a.
Proof.
  rewrite length_app. replace (length a + length b - length b) with (length a)
    by lia.
  rewrite firstn_app, firstn_all, Nat.sub_diag. simpl. apply app_nil_r.
Qed.

Lemma watch_v_watch_q : watch_v = watch_q ++ py "v=".
Proof. reflexivity. Qed.

Section ExtractFacts.
Context {U : UnicodeDB}.

(** The group [([^&\n?#]+)] at the end of a pattern takes the whole
    identifier. *)
Lemma id_group_takes (w suf : str) prev cap :
  w <> [] -> forallb id_char w = true -> ends_ident suf = true ->
  run (Grp (Plus id_char)) prev (w ++ suf) cap
      (fun _ s' cap' => Some (cap', s')) = Some (Some w, suf).
Proof.
  intros Hne Hw Hsuf. destruct w as [|x w]; [congruence|].
  simpl in Hw. apply andb_true_iff in Hw as [Hx Hw].
  cbn [run app]. rewrite Hx.
  apply greedy_all; [exact Hw | exact Hsuf |].
  change (x :: w ++ suf) with ((x :: w) ++ suf).
  rewrite firstn_app_length. reflexivity.
Qed.

Lemma match_pattern1_none (s : str) prev :
  starts_with watch_v s = false -> starts_with youtu_be s = false ->
  starts_with embed s = false ->
  match_here pattern1 prev s = None.
Proof.
  intros H1 H2 H3. unfold match_here, pattern1. cbn [run].
  rewrite !run_Lit, H1, H2, H3. reflexivity.
Qed.

Lemma match_pattern1_hit (marker w suf : str) prev :
  In marker markers ->
  w <> [] -> forallb id_char w = true -> ends_ident suf = true ->
  match_here pattern1 prev (marker ++ w ++ suf) = Some (Some w, suf).
Proof.
  intros Hm Hne Hw Hsuf. unfold match_here, pattern1.
  remember (Grp (Plus id_char)) as G eqn:EG. cbn [run].
  rewrite !run_Lit.
  destruct Hm as [<- | [<- | [<- | []]]];
    cbn -[run]; subst G; rewrite id_group_takes by assumption; reflexivity.
Qed.

Lemma match_pattern2_none (s : str) prev :
  starts_with watch_q s = false -> match_here pattern2 prev s = None.
Proof.
  intros H. unfold match_here, pattern2. cbn [run].
  rewrite run_Lit, H. reflexivity.
Qed.

(** No marker can begin before the place of another one and reach into
    it: a marker has its only [y] in front. *)
Lemma marker_not_across (m m2 p X : str) :
  In m markers -> In m2 markers -> p <> [] ->
  starts_with m (p ++ m2 ++ X) = true -> starts_with m p = true.
Proof.
  intros Hm Hm2 Hp H. destruct p as [|x p]; [congruence|].
  assert (exists Y, m2 ++ X = ch "y" :: Y) as [Y EY]
    by (destruct Hm2 as [<- | [<- | [<- | []]]]; eexists; reflexivity).
  rewrite EY in H.
  destruct Hm as [<- | [<- | [<- | []]]];
    (apply (starts_with_tail_before (ch "y") _ x p Y);
     [reflexivity | exact H]).
Qed.

(** A match of either pattern carries its group. *)
Lemma patterns_carry_group (pattern : regex) prev s f :
  In pattern patterns -> match_here pattern prev s = Some f ->
  fst f <> None.
Proof.
  pose (Post := fun g : found => fst g <> None).
  assert (forall prev s cap g,
             run (Grp (Plus id_char)) prev s cap
                 (fun _ s' cap' => Some (cap', s')) = Some g -> Post g) as G.
  { intros p t c g. cbn [run]. destruct t as [|x t]; [discriminate|].
    destruct (id_char x); [|discriminate].
    apply (greedy_post Post). intros prev' s' cap' f' [= <-]. discriminate. }
  assert (forall r1 r2 prev s cap g,
             (forall prev s cap g,
                 run r2 prev s cap (fun _ s' cap' => Some (cap', s')) = Some g ->
                 Post g) ->
             run (Cat r1 r2) prev s cap (fun _ s' cap' => Some (cap', s'))
               = Some g -> Post g) as C.
  { intros r1 r2 p t c g H. change (run (Cat r1 r2) p t c ?k)
      with (run r1 p t c (fun p' t' c' => run r2 p' t' c' k)).
    apply (run_post Post). exact H. }
  intros [<- | [<- | []]]; unfold match_here, pattern1, pattern2.
  - apply C, G.
  - apply C. intros p t c g. apply C. intros p' t' c' g'. apply C, G.
Qed.

Lemma extract_recognized (pre marker w suf : str) :
  In marker markers ->
  (forall m, In m markers -> contains m pre = false) ->
  w <> [] -> forallb ident_char w = true -> ends_ident suf = true ->
  extract_video_id (pre ++ marker ++ w ++ suf) = w.
Proof.
  intros Hm Hpre Hne Hw Hsuf. apply forallb_ident_id in Hw.
  unfold extract_video_id, patterns. cbn [first_match]. unfold re_search.
  rewrite search_from_skip.
  - destruct (marker ++ w ++ suf) as [|x t] eqn:E; cbn [search_from];
      rewrite <- E, (match_pattern1_hit _ _ _ _ Hm Hne Hw Hsuf); reflexivity.
  - intros p1 p2 q -> Hp2.
    assert (forall m, In m markers ->
                      starts_with m (p2 ++ marker ++ w ++ suf) = false) as N.
    { intros m Hin. destruct (starts_with m _) eqn:E; [|reflexivity].
      apply marker_not_across in E; try assumption.
      rewrite (contains_here _ _ (contains_suffix _ _ _ (Hpre m Hin))) in E.
      discriminate. }
    apply match_pattern1_none; apply N; simpl; auto.
Qed.

Lemma extract_unrecognized (s : str) :
  contains watch_q s = false -> contains youtu_be s = false ->
  contains embed s = false ->
  extract_video_id s = s.
Proof.
  intros Hq Hb He. unfold extract_video_id, patterns. cbn [first_match].
  unfold re_search.
  assert (forall w s1 s2, contains w s = false -> s = s1 ++ s2 ->
                          starts_with w s2 = false) as N.
  { intros w s1 s2 H ->. apply contains_here, (contains_suffix _ _ _ H). }
  rewrite search_from_none.
  - rewrite search_from_none; [reflexivity|].
    intros s1 s2 q E. apply match_pattern2_none. eapply N; eassumption.
  - intros s1 s2 q E. apply match_pattern1_none; try (eapply N; eassumption).
    destruct (starts_with watch_v s2) eqn:V; [|reflexivity].
    rewrite watch_v_watch_q in V. apply starts_with_prefix in V.
    rewrite (N _ _ _ Hq E) in V. discriminate.
Qed.

End ExtractFacts.

(** C1 (as amended).  A url [pre ++ marker ++ I ++ suf], where [marker]
    is one of [youtube.com/watch?v=], [youtu.be/], [youtube.com/embed/],
    [pre] holds none of them, the identifier [I] is a non-empty word over
    the alphanumerics, [_] and [-], and [suf] is empty or begins with
    [&], [?], [#] or a line break, is mapped to [I]; an input in which
    none of [youtube.com/watch?], [youtu.be/], [youtube.com/embed/]
    occurs is returned unchanged. *)
Theorem extract_video_id_spec (U : UnicodeDB) :
  (forall pre marker I suf,
      In marker markers ->
      (forall m, In m markers -> contains m pre = false) ->
      I <> [] -> forallb ident_char I = true -> ends_ident suf = true ->
      extract_video_id (pre ++ marker ++ I ++ suf) = I)
  /\
  (forall s,
      contains (py "youtube.com/watch?") s = false ->
      contains (py "youtu.be/") s = false ->
      contains (py "youtube.com/embed/") s = false ->
      extract_video_id s = s).
Proof.
  split.
  - intros; apply extract_recognized; assumption.
  - intros; apply extract_unrecognized; assumption.
Qed.

Lemma extract_video_id_spec_witness :
  @extract_video_id plain_db
     (py "https://www.youtube.com/watch?v=5zFUBD2rRis&t=42s")
  = py "5zFUBD2rRis"
  /\ @extract_video_id plain_db (py "5zFUBD2rRis") = py "5zFUBD2rRis".
Proof.
  destruct (extract_video_id_spec plain_db) as [Hshape Hbare]. split.
  - apply (Hshape (py "https://www.") watch_v (py "5zFUBD2rRis")
                  (py "&t=42s")).
    + left; reflexivity.
    + intros m [<- | [<- | [<- | []]]]; reflexivity.
    + discriminate.
    + reflexivity.
    + reflexivity.
  - apply (Hbare (py "5zFUBD2rRis")); reflexivity.
Defined.

(** C1 as stated in the specification fails: the second pattern accepts
    a url whose [v=] parameter is not the first one, and such a url holds
    none of [watch?v=], [youtu.be/], [embed/]. *)
Lemma extract_video_id_later_parameter :
  let s := py "https://www.youtube.com/watch?feature=share&v=abc" in
  contains (py "watch?v=") s = false /\
  contains (py "youtu.be/") s = false /\
  contains (py "embed/") s = false /\
  @extract_video_id plain_db s = py "abc" /\
  @extract_video_id plain_db s <> s.
Proof. vm_compute. repeat split; discriminate. Qed.

(** ** The scanned patterns *)

(** Each pattern given to [re.sub], [re.split] or [re.findall] consumes
    at least one character where it matches. *)
Lemma scanned_patterns_consume (U : UnicodeDB) (r : regex) prev s f :
  In r [whitespace_run; bracketed; parenthesized; sentence_end;
        word_pattern] ->
  match_here r prev s = Some f -> length (snd f) < length s.
Proof.
  intros [<- | [<- | [<- | [<- | [<- | []]]]]].
  - apply run_Plus_consumes, final_within.
  - apply match_here_Chr.
  - apply match_here_Chr.
  - apply run_Plus_consumes, final_within.
  - unfold match_here, word_pattern.
    change (run (Cat Bnd ?r) prev s None ?k)
      with (if xorb (is_word_at prev) (is_word_at (hd_error s))
            then run r prev s None k else None).
    destruct (xorb _ _); [|discriminate].
    change (run (Cat (Plus isword) Bnd) prev s None ?k)
      with (run (Plus isword) prev s None
                (fun p t c => run Bnd p t c k)).
    apply run_Plus_consumes. apply (run_within Bnd _ final_within).
Qed.

(** ** clean_transcript *)

(** C2 (as amended).  The steps run in the order whitespace collapse,
    removal of the [[...]] spans, removal of the [(...)] spans, trim; as
    the collapse comes first, the spaces on both sides of a removed span
    both stay, and ["Hello [Music] world (laughs) today"] becomes
    ["Hello  world  today"], with two spaces at each removal. *)
Theorem clean_transcript_example (U : UnicodeDB) :
  (forall c t,
      clean_transcript (Some (c :: t)) =
      strip (re_sub parenthesized []
               (re_sub bracketed []
                  (re_sub whitespace_run (py " ") (strip (c :: t))))))
  /\
  (let t0 := py "Hello [Music] world (laughs) today" in
   let t1 := re_sub whitespace_run (py " ") (strip t0) in
   let t2 := re_sub bracketed [] t1 in
   let t3 := re_sub parenthesized [] t2 in
   t1 = py "Hello [Music] world (laughs) today" /\
   t2 = py "Hello  world (laughs) today" /\
   t3 = py "Hello  world  today" /\
   strip t3 = py "Hello  world  today" /\
   clean_transcript (Some t0) = py "Hello  world  today").
Proof.
  split; [reflexivity|]. vm_compute. repeat split.
Qed.

(** C2 as stated fails: the result keeps both spaces around each removed
    span. *)
Lemma clean_transcript_keeps_spaces :
  @clean_transcript plain_db (Some (py "Hello [Music] world (laughs) today"))
  <> py "Hello world today".
Proof. vm_compute. discriminate. Qed.

(** C8.  The empty string and [None], and so every falsy input, are
    mapped to the empty string. *)
Theorem clean_transcript_falsy (U : UnicodeDB) :
  clean_transcript (Some (py "")) = py "" /\
  clean_transcript None = py "" /\
  (forall t, truthy t = false -> clean_transcript t = py "").
Proof.
  repeat split. intros [[|c t]|]; simpl; [reflexivity | discriminate | reflexivity].
Qed.

Lemma clean_transcript_falsy_witness :
  truthy None = false /\ @clean_transcript plain_db None = py "".
Proof.
  split; [reflexivity|].
  apply (proj2 (proj2 (clean_transcript_falsy plain_db))). reflexivity.
Defined.

(** ** The paragraphs of create_blog_outline *)


Section Grouping.
Context {U : UnicodeDB}.

Lemma group_loop_join (n : nat) (rest : list str) :
  forall i groups current,
    group_loop n i rest (map (join (py " ")) groups) current =
    map (join (py " ")) (group_loop_lists n i rest groups current).
Proof.
  induction rest as [|s rest IH]; intros i groups current; [reflexivity|].
  cbn [group_loop group_loop_lists].
  destruct ((4 <=? length (current ++ [s])) || (i =? n - 1)).
  - rewrite <- IH, map_app. reflexivity.
  - apply IH.
Qed.

Lemma paragraphs_of_groups (sentences : list str) :
  paragraphs_of sentences = map (join (py " ")) (groups_of sentences).
Proof. apply (group_loop_join _ sentences 0 [] []). Qed.

Lemma group_loop_sizes (n : nat) (rest : list str) :
  forall i groups current,
    Forall group_ok groups -> length current <= 3 ->
    Forall group_ok (group_loop_lists n i rest groups current).
Proof.
  induction rest as [|s rest IH]; intros i groups current Hg Hc;
    [exact Hg|].
  cbn [group_loop_lists].
  assert (length (current ++ [s]) = S (length current)) as L
    by (rewrite length_app; simpl; lia).
  destruct ((4 <=? length (current ++ [s])) || (i =? n - 1)) eqn:E.
  - apply IH; [|simpl; lia].
    apply Forall_app; split; [exact Hg|].
    constructor; [|constructor]. unfold group_ok; lia.
  - apply IH; [exact Hg|].
    apply orb_false_iff in E as [E _]. apply Nat.leb_gt in E. lia.
Qed.

(** The loop closes one group for every four sentences, and one more for
    what is left at the end. *)
Lemma group_loop_count (n : nat) (rest : list str) :
  forall i groups current,
    i + length rest = n -> length current <= 3 ->
    (rest = [] -> current = []) ->
    length (group_loop_lists n i rest groups current) =
    length groups + (length current + length rest + 3) / 4.
Proof.
  induction rest as [|s rest IH]; intros i groups current Hi Hc He.
  - rewrite (He eq_refl). simpl. lia.
  - cbn [group_loop_lists].
    assert (length (current ++ [s]) = S (length current)) as L
      by (rewrite length_app; simpl; lia).
    cbn [length] in Hi |- *.
    destruct ((4 <=? length (current ++ [s])) || (i =? n - 1)) eqn:E.
    + rewrite IH; [|lia|simpl; lia|reflexivity].
      rewrite length_app. cbn [length].
      apply orb_true_iff in E as [E | E].
      * apply Nat.leb_le in E. lia.
      * apply Nat.eqb_eq in E. lia.
    + apply orb_false_iff in E as [E1 E2].
      apply Nat.leb_gt in E1. apply Nat.eqb_neq in E2.
      rewrite IH; [|lia|lia|].
      * rewrite L. f_equal. f_equal. lia.
      * intros ->. simpl in Hi. lia.
Qed.

(** The groups are the sentences, cut into pieces. *)
Lemma group_loop_concat (n : nat) (rest : list str) :
  forall i groups current,
    i + length rest = n -> (rest = [] -> current = []) ->
    concat (group_loop_lists n i rest groups current) =
    concat groups ++ current ++ rest.
Proof.
  induction rest as [|s rest IH]; intros i groups current Hi He.
  - rewrite (He eq_refl). simpl. rewrite app_nil_r. reflexivity.
  - cbn [group_loop_lists]. cbn [length] in Hi.
    destruct ((4 <=? length (current ++ [s])) || (i =? n - 1)) eqn:E.
    + rewrite IH; [|lia|reflexivity].
      rewrite concat_app. simpl. rewrite app_nil_r, <- !app_assoc.
      reflexivity.
    + apply orb_false_iff in E as [_ E]. apply Nat.eqb_neq in E.
      rewrite IH; [|lia|].
      * rewrite <- app_assoc. reflexivity.
      * intros ->. simpl in Hi. lia.
Qed.

Lemma groups_of_concat (sentences : list str) :
  concat (groups_of sentences) = sentences.
Proof.
  unfold groups_of. rewrite group_loop_concat; simpl; auto.
Qed.

Lemma groups_of_count (sentences : list str) :
  length (groups_of sentences) = (length sentences + 3) / 4.
Proof.
  unfold groups_of. rewrite group_loop_count; simpl; auto; lia.
Qed.

Lemma section_loop_length (ps : list str) :
  forall i, length (section_loop i ps) = length ps.
Proof. induction ps as [|p ps IH]; intros i; simpl; [|rewrite IH]; reflexivity. Qed.

Lemma section_loop_numbered (ps : list str) :
  forall i, section_loop i ps =
            map (fun ip => section_block (fst ip) (snd ip))
                (combine (seq i (length ps)) ps).
Proof.
  induction ps as [|p ps IH]; intros i; simpl; [|rewrite IH]; reflexivity.
Qed.

Lemma section_blocks_length (paragraphs : list str) :
  length (section_blocks paragraphs) = length paragraphs - 1.
Proof.
  unfold section_blocks. rewrite section_loop_length.
  destruct paragraphs; simpl; lia.
Qed.

End Grouping.

Lemma sentences_of_stripped {U : UnicodeDB} (t : str) :
  Forall (fun s => s <> [] /\
                   exists x, In x (re_split sentence_end t) /\ s = strip x)
         (sentences_of t).
Proof.
  apply Forall_forall. intros s Hs. unfold sentences_of in Hs.
  apply in_map_iff in Hs as [x [<- Hx]]. apply filter_In in Hx as [Hx Ht].
  split; [|exists x; auto].
  destruct (strip x); [discriminate | discriminate].
Qed.



(** C5.  A transcript without paragraphs, the empty string among them,
    gets the fallback text as its introduction and no section block: the
    head of the document runs straight into the key takeaways. *)
Theorem create_blog_outline_empty (U : UnicodeDB) :
  (forall t u,
      paragraphs_of (sentences_of t) = [] ->
      section_blocks (paragraphs_of (sentences_of t)) = [] /\
      create_blog_outline t u =
        py "# Video Transcript Analysis and Outline" ++ nl ++
        nl ++
        py "**Source Video:** " ++ u ++ nl ++
        nl ++
        py "## Introduction" ++ nl ++
        nl ++
        py "No transcript content available." ++ nl ++
        nl ++
        py "## Main Content Points" ++ nl ++
        nl ++
        py "## Key Takeaways" ++ nl ++
        nl ++
        py "Based on the transcript analysis, the main points discussed include:"
        ++ nl ++
        nl ++
        concat (bullets t) ++ outline_tail)
  /\
  paragraphs_of (sentences_of (py "")) = []
  /\
  bullets (py "") = []
  /\
  occurrences (py "### Section") (create_blog_outline (py "") video_url) = 0
  /\
  occurrences (py "No transcript content available.")
              (create_blog_outline (py "") video_url) = 1.
Proof.
  split; [|vm_compute; repeat split].
  intros t u H. unfold create_blog_outline, create_blog_outline_with.
  rewrite H. split; [reflexivity|].
  unfold outline_head, takeaways_head. rewrite <- !app_assoc. reflexivity.
Qed.

Lemma create_blog_outline_empty_witness :
  @section_blocks (@paragraphs_of (@sentences_of plain_db (py " ?! ."))) = [].
Proof.
  apply (proj1 (create_blog_outline_empty plain_db) (py " ?! .") video_url).
  vm_compute. reflexivity.
Defined.

(** C9.  The paragraphs are the joins of groups that cut the sentence
    list into pieces of one to four sentences, and the document holds
    [max(0, ceil(n / 4) - 1)] section blocks for [n] sentences, numbered
    from 1, one for each paragraph after the first. *)
Theorem create_blog_outline_groups (U : UnicodeDB) (t u : str) :
  let sentences := sentences_of t in
  let paragraphs := paragraphs_of sentences in
  paragraphs = map (join (py " ")) (groups_of sentences) /\
  concat (groups_of sentences) = sentences /\
  Forall (fun g => 1 <= length g <= 4) (groups_of sentences) /\
  Z.of_nat (length paragraphs) = ceil_div (Z.of_nat (length sentences)) 4 /\
  Z.of_nat (length (section_blocks paragraphs))
    = Z.max 0 (ceil_div (Z.of_nat (length sentences)) 4 - 1) /\
  section_blocks paragraphs =
    map (fun ip => py "### Section " ++ str_of_nat (fst ip) ++ nl ++ nl
                   ++ snd ip ++ nl ++ nl)
        (combine (seq 1 (length paragraphs - 1)) (tl paragraphs)) /\
  create_blog_outline t u =
    outline_head u paragraphs ++ concat (section_blocks paragraphs)
    ++ takeaways_head ++ concat (bullets t) ++ outline_tail.
Proof.
  intros sentences paragraphs.
  assert (length paragraphs = (length sentences + 3) / 4) as L.
  { unfold paragraphs. rewrite paragraphs_of_groups, length_map.
    apply groups_of_count. }
  split; [apply paragraphs_of_groups|].
  split; [apply groups_of_concat|].
  split; [apply group_loop_sizes; [constructor | simpl; lia]|].
  unfold ceil_div. rewrite section_blocks_length, L.
  split; [lia|]. split; [lia|]. split; [|reflexivity].
  unfold section_blocks. rewrite section_loop_numbered.
  replace (length (tl paragraphs)) with ((length sentences + 3) / 4 - 1)
    by (rewrite <- L; destruct paragraphs; simpl; lia).
  reflexivity.
Qed.

(** ** The word-frequency pass *)

Set Implicit Arguments.

Section ListOrder.
Variable A : Type.
Implicit Types (x y : A) (l : list A).

Lemma in_firstn (n : nat) x l : In x (firstn n l) -> In x l.
Proof.
  revert l; induction n as [|n IH]; intros [|a l]; simpl; try tauto.
  intros [H | H]; [left; exact H | right; apply IH, H].
Qed.

Lemma precedes_in_r x y l : precedes x y l -> In y l.
Proof. induction 1; simpl; auto. Qed.

Lemma precedes_filter_inv (f : A -> bool) x y l :
  precedes x y (filter f l) -> precedes x y l.
Proof.
  induction l as [|a l IH]; simpl; [inversion 1|].
  destruct (f a).
  - inversion 1; subst.
    + apply precedes_here. eapply proj1, filter_In; eassumption.
    + apply precedes_later, IH; assumption.
  - intros H; apply precedes_later, IH, H.
Qed.

Lemma precedes_filter (f : A -> bool) x y l :
  precedes x y l -> f x = true -> f y = true -> precedes x y (filter f l).
Proof.
  intros H Hx Hy. induction H as [l Hin | z l H IH]; simpl.
  - rewrite Hx. apply precedes_here, filter_In; auto.
  - destruct (f z); [apply precedes_later|]; exact IH.
Qed.

Lemma precedes_firstn (n : nat) x y l :
  precedes x y (firstn n l) -> precedes x y l.
Proof.
  revert l; induction n as [|n IH]; intros [|a l]; simpl;
    try solve [inversion 1].
  inversion 1; subst.
  - apply precedes_here. eapply in_firstn; eassumption.
  - apply precedes_later, IH; assumption.
Qed.

Lemma precedes_map (B : Type) (g : A -> B) x y l :
  precedes x y l -> precedes (g x) (g y) (map g l).
Proof.
  induction 1 as [l Hin | z l H IH]; simpl.
  - apply precedes_here, in_map, Hin.
  - apply precedes_later, IH.
Qed.

Lemma precedes_snoc x y l (w : A) :
  precedes x y (l ++ [w]) -> precedes x y l \/ (y = w /\ In x l).
Proof.
  induction l as [|a l IH]; simpl.
  - inversion 1; subst; [contradiction | inversion H1].
  - inversion 1; subst.
    + apply in_app_or in H1 as [H1 | [<- | []]].
      * left; apply precedes_here, H1.
      * right; auto.
    + destruct (IH H1) as [H2 | [-> H2]].
      * left; apply precedes_later, H2.
      * right; auto.
Qed.

Lemma sorted_precedes (R : A -> A -> Prop) x y l :
  StronglySorted R l -> precedes x y l -> R x y.
Proof.
  intros HS H. induction H as [l Hin | z l H IH].
  - apply StronglySorted_inv in HS as [_ HF].
    rewrite Forall_forall in HF. apply HF, Hin.
  - apply IH. apply StronglySorted_inv in HS as [HS _]. exact HS.
Qed.

Lemma sorted_firstn (R : A -> A -> Prop) (n : nat) l :
  StronglySorted R l -> StronglySorted R (firstn n l).
Proof.
  intros HS; revert n; induction HS as [|a l HS IH HF]; intros [|n]; simpl;
    try constructor.
  - apply IH.
  - rewrite Forall_forall in *. intros z Hz. eapply HF, in_firstn, Hz.
Qed.

Lemma sorted_filter (R : A -> A -> Prop) (f : A -> bool) l :
  StronglySorted R l -> StronglySorted R (filter f l).
Proof.
  induction 1 as [|a l HS IH HF]; simpl; [constructor|].
  destruct (f a); [|exact IH]. constructor; [exact IH|].
  rewrite Forall_forall in *. intros z Hz. apply filter_In in Hz as [Hz _].
  apply HF, Hz.
Qed.

End ListOrder.

Unset Implicit Arguments.

(** *** The sort *)

Lemma insert_desc_perm (x : str * nat) (l : list (str * nat)) :
  Permutation (x :: l) (insert_desc x l).
Proof.
  induction l as [|y l IH]; simpl; [reflexivity|].
  destruct (snd y <=? snd x); [reflexivity|].
  rewrite perm_swap. apply perm_skip, IH.
Qed.

Lemma insert_desc_sorted (x : str * nat) (l : list (str * nat)) :
  StronglySorted count_desc l -> StronglySorted count_desc (insert_desc x l).
Proof.
  induction 1 as [|y l HS IH HF]; simpl; [repeat constructor|].
  destruct (snd y <=? snd x) eqn:E.
  - apply Nat.leb_le in E. constructor; [constructor; assumption|].
    constructor; [exact E|].
    rewrite Forall_forall in *. intros z Hz. unfold count_desc in *.
    specialize (HF z Hz). lia.
  - apply Nat.leb_gt in E. constructor; [exact IH|].
    rewrite Forall_forall in *. intros z Hz.
    apply (Permutation_in _ (Permutation_sym (insert_desc_perm x l))) in Hz.
    destruct Hz as [<- | Hz]; [unfold count_desc; lia | apply HF, Hz].
Qed.

Lemma insert_desc_stable (c : nat) (x : str * nat) (l : list (str * nat)) :
  filter (has_count c) (insert_desc x l) = filter (has_count c) (x :: l).
Proof.
  induction l as [|y l IH]; [reflexivity|]. cbn [insert_desc].
  destruct (snd y <=? snd x) eqn:E; [reflexivity|].
  apply Nat.leb_gt in E. cbn [filter] in IH |- *. rewrite IH.
  unfold has_count in *.
  destruct (snd x =? c) eqn:Ex; [|reflexivity].
  apply Nat.eqb_eq in Ex.
  destruct (snd y =? c) eqn:Ey; [|reflexivity].
  apply Nat.eqb_eq in Ey. lia.
Qed.

Lemma sorted_by_count_contract : sorted_contract sorted_by_count.
Proof.
  split.
  - induction l as [|x l IH]; simpl; [constructor|].
    rewrite <- insert_desc_perm. apply perm_skip, IH.
  - induction l as [|x l IH]; simpl; [constructor|].
    apply insert_desc_sorted, IH.
  - intros l c. induction l as [|x l IH]; simpl; [reflexivity|].
    rewrite insert_desc_stable. simpl. rewrite IH. reflexivity.
Qed.

(** Two lists in descending order of the count that agree on the entries
    of every count, in their order, are equal. *)
Lemma sorted_stable_unique (l1 l2 : list (str * nat)) :
  StronglySorted count_desc l1 -> StronglySorted count_desc l2 ->
  (forall c, filter (has_count c) l1 = filter (has_count c) l2) ->
  l1 = l2.
Proof.
  intros H1; revert l2; induction H1 as [|a l1 HS1 IH HF1];
    intros l2 H2 HE.
  - destruct l2 as [|b l2]; [reflexivity|].
    specialize (HE (snd b)). simpl in HE. unfold has_count in HE at 1.
    rewrite Nat.eqb_refl in HE. discriminate.
  - destruct l2 as [|b l2].
    { specialize (HE (snd a)). simpl in HE. unfold has_count in HE at 1.
      rewrite Nat.eqb_refl in HE. discriminate. }
    apply StronglySorted_inv in H2 as [HS2 HF2].
    rewrite Forall_forall in HF1, HF2.
    assert (snd a <= snd b) as Lab.
    { assert (In a (filter (has_count (snd a)) (b :: l2))) as Hin.
      { rewrite <- HE. simpl. unfold has_count at 1.
        rewrite Nat.eqb_refl. left; reflexivity. }
      apply filter_In in Hin as [[<- | Hin] _]; [lia | apply HF2, Hin]. }
    assert (snd b <= snd a) as Lba.
    { assert (In b (filter (has_count (snd b)) (a :: l1))) as Hin.
      { rewrite HE. simpl. unfold has_count at 1.
        rewrite Nat.eqb_refl. left; reflexivity. }
      apply filter_In in Hin as [[<- | Hin] _]; [lia | apply HF1, Hin]. }
    assert (a = b) as <-.
    { specialize (HE (snd a)). simpl in HE.
      assert (has_count (snd a) a = true) as Ea by apply Nat.eqb_refl.
      assert (has_count (snd a) b = true) as Eb by (apply Nat.eqb_eq; lia).
      rewrite Ea, Eb in HE. congruence. }
    f_equal. apply IH; [exact HS2|].
    intros c. specialize (HE c). simpl in HE.
    destruct (has_count c a); congruence.
Qed.

(** The built-in [sorted] is determined by its documentation. *)
Lemma sorted_contract_unique srt (l : list (str * nat)) :
  sorted_contract srt -> srt l = sorted_by_count l.
Proof.
  intros H. apply sorted_stable_unique.
  - apply (srt_sorted _ H).
  - apply (srt_sorted _ sorted_by_count_contract).
  - intros c. rewrite (srt_stable _ H),
      (srt_stable _ sorted_by_count_contract). reflexivity.
Qed.

(** *** The keys of the dictionary *)

Lemma existsb_str_in (w : str) (ks : list str) :
  existsb (fun k => str_eqb k w) ks = true <-> In w ks.
Proof.
  rewrite existsb_exists. split.
  - intros [k [Hk E]]. apply str_eqb_eq in E. subst; exact Hk.
  - intros H. exists w. split; [exact H | apply str_eqb_refl].
Qed.

Lemma dict_set_keys (d : dict) (k : str) (v : nat) :
  map fst (dict_set d k v) = add_key (map fst d) k.
Proof.
  unfold add_key. induction d as [|[k' v'] d IH]; simpl; [reflexivity|].
  destruct (str_eqb k' k); simpl; [reflexivity|].
  rewrite IH. destruct (existsb _ (map fst d)); reflexivity.
Qed.

Lemma count_word_keys (d : dict) (w : str) :
  map fst (count_word d w) = note_word (map fst d) w.
Proof.
  unfold count_word, note_word.
  destruct (4 <? length w); [apply dict_set_keys | reflexivity].
Qed.

Lemma word_freq_keys (ws : list str) :
  forall d, map fst (fold_left count_word ws d)
            = fold_left note_word ws (map fst d).
Proof.
  induction ws as [|w ws IH]; intros d; simpl; [reflexivity|].
  rewrite IH, count_word_keys. reflexivity.
Qed.

Lemma note_word_in (ks : list str) (w k : str) :
  In k (note_word ks w) -> In k ks \/ (4 < length k /\ k = w).
Proof.
  unfold note_word, add_key.
  destruct (4 <? length w) eqn:L; [|auto].
  apply Nat.ltb_lt in L.
  destruct (existsb _ ks); [auto|].
  intros H. apply in_app_or in H as [H | [<- | []]]; auto.
Qed.

Lemma note_fold_in (ws : list str) :
  forall ks k, In k (fold_left note_word ws ks) ->
               In k ks \/ (4 < length k /\ In k ws).
Proof.
  induction ws as [|w ws IH]; intros ks k H; simpl in *; [auto|].
  apply IH in H as [H | [L H]]; [|auto].
  apply note_word_in in H as [H | [L ->]]; auto.
Qed.

(** The keys stand in the order in which the words first occur. *)
Lemma note_fold_order (ws : list str) :
  forall ks k1 k2,
    precedes k1 k2 (fold_left note_word ws ks) ->
    precedes k1 k2 ks \/
    (~ In k2 ks /\ (In k1 ks \/ index_of k1 ws < index_of k2 ws)).
Proof.
  induction ws as [|w ws IH]; intros ks k1 k2 H; simpl in H; [auto|].
  pose proof (precedes_in_r H) as Hin. apply note_fold_in in Hin.
  apply IH in H. cbn [index_of].
  assert (str_eqb w k1 = true -> str_eqb w k2 = true ->
          index_of k1 ws < index_of k2 ws -> False) as Same.
  { intros E1 E2. apply str_eqb_eq in E1, E2. subst. lia. }
  unfold note_word, add_key in H, Hin.
  destruct (4 <? length w) eqn:L;
    [destruct (existsb (fun k => str_eqb k w) ks) eqn:Ex|].
  - (* a word seen before *)
    apply existsb_str_in in Ex.
    destruct H as [H | [N [H | H]]]; auto.
    right; split; [exact N|]. right.
    destruct (str_eqb w k1) eqn:E1, (str_eqb w k2) eqn:E2; try lia;
      try solve [exfalso; auto].
    apply str_eqb_eq in E2. subst. contradiction.
  - (* a new word, appended *)
    assert (~ In w ks) as Nw
      by (intros C; apply existsb_str_in in C; congruence).
    destruct H as [H | [N [H | H]]].
    + apply precedes_snoc in H as [H | [-> H]]; auto.
    + right. split; [intros C; apply N, in_or_app; auto|].
      apply in_app_or in H as [H | [<- | []]]; [auto|].
      right. rewrite str_eqb_refl.
      destruct (str_eqb w k2) eqn:E2; [|lia].
      apply str_eqb_eq in E2. subst. exfalso. apply N, in_or_app.
      right; left; reflexivity.
    + right. split; [intros C; apply N, in_or_app; auto|]. right.
      destruct (str_eqb w k1) eqn:E1, (str_eqb w k2) eqn:E2; try lia;
        try solve [exfalso; auto].
      apply str_eqb_eq in E2. subst. exfalso. apply N, in_or_app.
      right; left; reflexivity.
  - (* a short word, not counted *)
    apply Nat.ltb_ge in L.
    destruct H as [H | [N [H | H]]]; auto.
    right; split; [exact N|]. right.
    destruct (str_eqb w k1) eqn:E1, (str_eqb w k2) eqn:E2; try lia;
      try solve [exfalso; auto].
    apply str_eqb_eq in E2. subst.
    destruct Hin as [Hin | [Hin _]]; [contradiction | lia].
Qed.

(** *** The counts *)

Lemma dict_get_set (d : dict) (k k' : str) (v default : nat) :
  dict_get (dict_set d k v) k' default =
  if str_eqb k k' then v else dict_get d k' default.
Proof.
  induction d as [|[a b] d IH]; simpl; [reflexivity|].
  destruct (str_eqb a k) eqn:Ea; simpl.
  - apply str_eqb_eq in Ea. subst a. destruct (str_eqb k k'); reflexivity.
  - rewrite IH. destruct (str_eqb a k') eqn:Ea'; [|reflexivity].
    destruct (str_eqb k k') eqn:Ek; [|reflexivity].
    apply str_eqb_eq in Ea', Ek. subst. rewrite str_eqb_refl in Ea.
    discriminate.
Qed.

Lemma word_freq_get (ws : list str) :
  forall d k,
    dict_get (fold_left count_word ws d) k 0 =
    dict_get d k 0 + (if 4 <? length k then tally k ws else 0).
Proof.
  induction ws as [|w ws IH]; intros d k; cbn [fold_left].
  - unfold tally. simpl. destruct (4 <? length k); lia.
  - rewrite IH. unfold count_word, tally. cbn [filter].
    destruct (str_eqb w k) eqn:E.
    + apply str_eqb_eq in E. subst w.
      destruct (4 <? length k); [|reflexivity].
      rewrite dict_get_set, str_eqb_refl. simpl. lia.
    + destruct (4 <? length w); [|reflexivity].
      rewrite dict_get_set, E. reflexivity.
Qed.

Lemma add_key_nodup (ks : list str) (w : str) :
  NoDup ks -> NoDup (add_key ks w).
Proof.
  unfold add_key. destruct (existsb _ ks) eqn:E; [auto|].
  assert (~ In w ks) as N
    by (intros C; apply existsb_str_in in C; congruence).
  clear E. induction 1 as [|a ks Ha Hks IH]; simpl.
  - repeat constructor. intros [].
  - constructor.
    + intros C. apply in_app_or in C as [C | [<- | []]]; [auto|].
      apply N. left; reflexivity.
    + apply IH. intros C. apply N. right; exact C.
Qed.

Lemma note_fold_nodup (ws : list str) :
  forall ks, NoDup ks -> NoDup (fold_left note_word ws ks).
Proof.
  induction ws as [|w ws IH]; intros ks H; simpl; [exact H|].
  apply IH. unfold note_word.
  destruct (4 <? length w); [apply add_key_nodup|]; exact H.
Qed.

Lemma dict_get_in (d : dict) (k : str) (c : nat) :
  NoDup (map fst d) -> In (k, c) d -> dict_get d k 0 = c.
Proof.
  induction d as [|[a b] d IH]; simpl; [tauto|].
  intros H Hin. apply NoDup_cons_iff in H as [Ha H].
  destruct Hin as [E | Hin].
  - injection E as -> ->. rewrite str_eqb_refl. reflexivity.
  - destruct (str_eqb a k) eqn:Ea; [|apply IH; assumption].
    apply str_eqb_eq in Ea. subst a. exfalso. apply Ha.
    apply (in_map fst) in Hin. exact Hin.
Qed.

(** The dictionary holds the words longer than 4 characters, once each,
    with the number of their occurrences. *)
Lemma word_freq_counts (ws : list str) :
  NoDup (map fst (word_freq_of ws)) /\
  Forall (fun wf : str * nat =>
            4 < length (fst wf) /\ snd wf = tally (fst wf) ws)
         (word_freq_of ws).
Proof.
  assert (NoDup (map fst (word_freq_of ws))) as N.
  { unfold word_freq_of. rewrite word_freq_keys. apply note_fold_nodup.
    constructor. }
  split; [exact N|].
  apply Forall_forall. intros [k c] H. simpl.
  assert (4 < length k) as L.
  { apply (in_map fst) in H. unfold word_freq_of in H.
    rewrite word_freq_keys in H. apply note_fold_in in H as [[] | [L _]].
    exact L. }
  split; [exact L|].
  rewrite <- (dict_get_in _ _ _ N H). unfold word_freq_of.
  rewrite word_freq_get. apply Nat.ltb_lt in L. rewrite L. reflexivity.
Qed.

Lemma word_freq_order (ws : list str) (x y : str * nat) :
  precedes x y (word_freq_of ws) ->
  index_of (fst x) ws < index_of (fst y) ws.
Proof.
  intros H. apply (precedes_map fst) in H. unfold word_freq_of in H.
  rewrite word_freq_keys in H.
  apply note_fold_order in H as [H | [_ [[] | H]]]; [inversion H | exact H].
Qed.

Section Takeaways.
Context {U : UnicodeDB}.

Lemma takeaways_with_unique srt (t : str) :
  sorted_contract srt -> takeaways_with srt t = takeaways t.
Proof.
  intros H. unfold takeaways, takeaways_with, top_words_with.
  rewrite (sorted_contract_unique _ _ H). reflexivity.
Qed.

Lemma top_words_sorted (t : str) : StronglySorted count_desc (top_words t).
Proof.
  apply sorted_firstn, (srt_sorted _ sorted_by_count_contract).
Qed.

Lemma takeaways_descending (t : str) (x y : str * nat) :
  precedes x y (takeaways t) -> snd y <= snd x.
Proof.
  intros H. apply precedes_filter_inv in H.
  apply (sorted_precedes (top_words_sorted t) H).
Qed.

Lemma takeaways_ties (t : str) (x y : str * nat) :
  precedes x y (takeaways t) -> snd x = snd y ->
  index_of (fst x) (words_of t) < index_of (fst y) (words_of t).
Proof.
  intros H E. apply precedes_filter_inv, precedes_firstn in H.
  apply (precedes_filter (has_count (snd x))) in H;
    [|apply Nat.eqb_refl | apply Nat.eqb_eq; auto].
  rewrite (srt_stable _ sorted_by_count_contract) in H.
  apply precedes_filter_inv in H. apply word_freq_order, H.
Qed.

End Takeaways.


(** C10.  Of two bullets the earlier one has the larger count or, with
    equal counts, the word that occurs first in the transcript; whatever
    sort with the documented behaviour of [sorted] is used, the bullets
    and their order are the same. *)
Theorem takeaways_order (U : UnicodeDB) (t : str) :
  bullets t = map (fun wf => bullet (fst wf) (snd wf)) (takeaways t) /\
  StronglySorted count_desc (takeaways t) /\
  (forall x y,
      precedes x y (takeaways t) ->
      snd y <= snd x /\
      (snd x = snd y ->
       index_of (fst x) (words_of t) < index_of (fst y) (words_of t))) /\
  (forall srt, sorted_contract srt -> bullets_with srt t = bullets t).
Proof.
  split; [reflexivity|].
  split; [apply sorted_filter, top_words_sorted|]. split.
  - intros x y H. split.
    + apply (takeaways_descending _ _ _ H).
    + apply (takeaways_ties _ _ _ H).
  - intros srt H. unfold bullets, bullets_with.
    rewrite (takeaways_with_unique _ _ H). reflexivity.
Qed.

Lemma takeaways_order_witness :
  let t := py "delta bravo alpha bravo alpha bravo alpha delta delta delta" in
  @takeaways plain_db t
    = [(py "delta", 4); (py "bravo", 3); (py "alpha", 3)] /\
  3 <= 4 /\ 3 <= 3 /\
  index_of (py "bravo") (@words_of plain_db t)
    < index_of (py "alpha") (@words_of plain_db t) /\
  @bullets_with plain_db sorted_by_count t = @bullets plain_db t.
Proof.
  set (t := py "delta bravo alpha bravo alpha bravo alpha delta delta delta").
  cbv zeta.
  destruct (takeaways_order plain_db t) as [_ [_ [Hord Hany]]].
  assert (@takeaways plain_db t
          = [(py "delta", 4); (py "bravo", 3); (py "alpha", 3)]) as E
    by (vm_compute; reflexivity).
  assert (precedes (py "delta", 4) (py "bravo", 3) (@takeaways plain_db t))
    as P1 by (rewrite E; apply precedes_here; simpl; auto).
  assert (precedes (py "bravo", 3) (py "alpha", 3) (@takeaways plain_db t))
    as P2 by (rewrite E; apply precedes_later, precedes_here; simpl; auto).
  split; [exact E|].
  split; [exact (proj1 (Hord _ _ P1))|].
  split; [exact (proj1 (Hord _ _ P2))|].
  split; [exact (proj2 (Hord _ _ P2) eq_refl)|].
  exact (Hany sorted_by_count sorted_by_count_contract).
Defined.

(** *** The dict and the sort of the interpreter *)

Section HashingFacts.
Variable str_hash : str -> N.

Lemma entry_matches_hashed (key : str) (kv : str * nat) :
  entry_matches str_hash key
    {| e_hash := str_hash (fst kv); e_key := fst kv; e_value := snd kv |}
  = str_eqb (fst kv) key.
Proof.
  unfold entry_matches. cbn [e_hash e_key].
  destruct (str_eqb (fst kv) key) eqn:E; [|apply andb_false_r].
  apply str_eqb_eq in E. rewrite E, N.eqb_refl. reflexivity.
Qed.

Lemma hdict_get_hashed (d : dict) (key : str) (default : nat) :
  hdict_get str_hash (hashed str_hash d) key default
  = dict_get d key default.
Proof.
  induction d as [|[k v] d IH]; [reflexivity|].
  cbn [hashed map hdict_get dict_get]. rewrite entry_matches_hashed.
  cbn [fst snd e_value]. fold (hashed str_hash d). rewrite IH. reflexivity.
Qed.

Lemma hdict_set_hashed (d : dict) (key : str) (value : nat) :
  hdict_set str_hash (hashed str_hash d) key value
  = hashed str_hash (dict_set d key value).
Proof.
  induction d as [|[k v] d IH]; [reflexivity|].
  cbn [hashed map hdict_set dict_set]. rewrite entry_matches_hashed.
  cbn [fst snd e_hash e_key]. fold (hashed str_hash d).
  destruct (str_eqb k key); [reflexivity|].
  rewrite IH. reflexivity.
Qed.

Lemma hdict_items_hashed (d : dict) : hdict_items (hashed str_hash d) = d.
Proof.
  induction d as [|[k v] d IH]; [reflexivity|].
  unfold hdict_items, hashed in *. cbn [map e_key e_value fst snd].
  f_equal. exact IH.
Qed.

(** Whatever the hash, the dict of the counting loop holds the entries
    of [word_freq_of], in the same order. *)
Lemma word_freq_hashed_entries (ws : list str) :
  forall d,
    fold_left (count_word_hashed str_hash) ws (hashed str_hash d)
    = hashed str_hash (fold_left count_word ws d).
Proof.
  induction ws as [|w ws IH]; intros d; [reflexivity|].
  cbn [fold_left]. rewrite <- IH. f_equal.
  unfold count_word_hashed, count_word.
  destruct (4 <? length w); [|reflexivity].
  rewrite hdict_get_hashed, hdict_set_hashed. reflexivity.
Qed.

Lemma word_freq_hashed_items (ws : list str) :
  hdict_items (word_freq_hashed str_hash ws) = word_freq_of ws.
Proof.
  unfold word_freq_hashed, word_freq_of.
  change (@nil entry) with (hashed str_hash []).
  rewrite (word_freq_hashed_entries ws []). apply hdict_items_hashed.
Qed.

End HashingFacts.

Lemma insert_asc_perm (x : str * nat) (l : list (str * nat)) :
  Permutation (x :: l) (insert_asc x l).
Proof.
  induction l as [|y l IH]; simpl; [reflexivity|].
  destruct (snd x <=? snd y); [reflexivity|].
  rewrite perm_swap. apply perm_skip, IH.
Qed.

Lemma insert_asc_sorted (x : str * nat) (l : list (str * nat)) :
  StronglySorted (fun a b => snd a <= snd b) l ->
  StronglySorted (fun a b => snd a <= snd b) (insert_asc x l).
Proof.
  induction 1 as [|y l HS IH HF]; simpl; [repeat constructor|].
  destruct (snd x <=? snd y) eqn:E.
  - apply Nat.leb_le in E. constructor; [constructor; assumption|].
    constructor; [exact E|].
    rewrite Forall_forall in *. intros z Hz. specialize (HF z Hz). lia.
  - apply Nat.leb_gt in E. constructor; [exact IH|].
    rewrite Forall_forall in *. intros z Hz.
    apply (Permutation_in _ (Permutation_sym (insert_asc_perm x l))) in Hz.
    destruct Hz as [<- | Hz]; [lia | apply HF, Hz].
Qed.

Lemma insert_asc_stable (c : nat) (x : str * nat) (l : list (str * nat)) :
  filter (has_count c) (insert_asc x l) = filter (has_count c) (x :: l).
Proof.
  induction l as [|y l IH]; [reflexivity|]. cbn [insert_asc].
  destruct (snd x <=? snd y) eqn:E; [reflexivity|].
  apply Nat.leb_gt in E. cbn [filter] in IH |- *. rewrite IH.
  unfold has_count in *.
  destruct (snd x =? c) eqn:Ex; [|reflexivity].
  apply Nat.eqb_eq in Ex.
  destruct (snd y =? c) eqn:Ey; [|reflexivity].
  apply Nat.eqb_eq in Ey. lia.
Qed.

Lemma sorted_rev (l : list (str * nat)) :
  StronglySorted (fun a b => snd a <= snd b) l ->
  StronglySorted count_desc (rev l).
Proof.
  induction 1 as [|y l HS IH HF]; simpl; [constructor|].
  assert (forall m : list (str * nat),
             StronglySorted count_desc m ->
             Forall (fun z => count_desc z y) m ->
             StronglySorted count_desc (m ++ [y])) as Snoc.
  { induction 1 as [|z m Hm IHm Hz]; intros F; simpl.
    - repeat constructor.
    - apply Forall_cons_iff in F as [Fz F].
      constructor; [apply IHm, F|].
      apply Forall_app. split; [exact Hz | repeat constructor; exact Fz]. }
  apply Snoc; [exact IH|].
  rewrite Forall_forall in *. intros z Hz. apply in_rev in Hz.
  apply HF, Hz.
Qed.

(** The sort of the interpreter does what [sorted] is documented to
    do. *)
Lemma sorted_reversed_contract : sorted_contract sorted_reversed.
Proof.
  assert (forall m, Permutation m (sorted_ascending m)) as P.
  { induction m as [|x m IH]; simpl; [constructor|].
    rewrite <- insert_asc_perm. apply perm_skip, IH. }
  split; unfold sorted_reversed.
  - intros l. rewrite <- Permutation_rev, <- P. apply Permutation_rev.
  - intros l. apply sorted_rev.
    induction (rev l) as [|x m IH]; simpl; [constructor|].
    apply insert_asc_sorted, IH.
  - intros l c. rewrite filter_rev.
    assert (forall m, filter (has_count c) (sorted_ascending m)
                      = filter (has_count c) m) as S.
    { induction m as [|x m IH]; simpl; [reflexivity|].
      rewrite insert_asc_stable. simpl. rewrite IH. reflexivity. }
    rewrite S, filter_rev, rev_involutive. reflexivity.
Qed.

Lemma create_blog_outline_on_any {U : UnicodeDB} str_hash srt
    (t u : str) :
  sorted_contract srt ->
  create_blog_outline_on str_hash srt t u = create_blog_outline t u.
Proof.
  intros H.
  unfold create_blog_outline_on, create_blog_outline,
    create_blog_outline_with, bullets_with, takeaways_with, top_words_with.
  cbv zeta. rewrite word_freq_hashed_items, (sorted_contract_unique _ _ H).
  reflexivity.
Qed.

(** C6.  Two calls with the same transcript and source reference return
    the same document, in whatever process each of them runs: the hash
    of the strings, which places the keys inside the dict, and the sort
    behind [sorted] do not reach the result.  The dict gives out its
    entries in the order in which the words first occur, under every
    hash. *)
Theorem create_blog_outline_deterministic (U : UnicodeDB)
    (hash1 hash2 : str -> N) srt1 srt2 :
  sorted_contract srt1 -> sorted_contract srt2 ->
  forall t u,
    create_blog_outline_on hash1 srt1 t u
      = create_blog_outline_on hash2 srt2 t u /\
    hdict_items (word_freq_hashed hash1 (words_of t))
      = hdict_items (word_freq_hashed hash2 (words_of t)) /\
    (forall x y,
        precedes x y (hdict_items (word_freq_hashed hash1 (words_of t))) ->
        index_of (fst x) (words_of t) < index_of (fst y) (words_of t)) /\
    create_blog_outline_on hash1 srt1 t u = create_blog_outline t u.
Proof.
  intros H1 H2 t u.
  rewrite !word_freq_hashed_items.
  rewrite (create_blog_outline_on_any hash1 srt1 t u H1),
    (create_blog_outline_on_any hash2 srt2 t u H2).
  repeat split. intros x y. apply word_freq_order.
Qed.

Lemma create_blog_outline_deterministic_witness :
  let t := py "delta bravo alpha bravo alpha bravo alpha delta delta delta" in
  @create_blog_outline_on plain_db hash_zero sorted_by_count t video_url
  = @create_blog_outline_on plain_db hash_sum sorted_reversed t video_url
  /\
  hdict_items (word_freq_hashed hash_zero (@words_of plain_db t))
  = [(py "delta", 4); (py "bravo", 3); (py "alpha", 3)]
  /\
  @bullets plain_db t
  = [py "- **Delta** (mentioned 4 times)" ++ nl;
     py "- **Bravo** (mentioned 3 times)" ++ nl;
     py "- **Alpha** (mentioned 3 times)" ++ nl].
Proof.
  cbv zeta. split; [|split; vm_compute; reflexivity].
  exact (proj1 (@create_blog_outline_deterministic plain_db
                  hash_zero hash_sum sorted_by_count sorted_reversed
                  sorted_by_count_contract sorted_reversed_contract
                  (py "delta bravo alpha bravo alpha bravo alpha delta delta delta")
                  video_url)).
Defined.

(** ** get_transcript and main *)

Section PipelineFacts.
Context {U : UnicodeDB}.
Variable fetcher : oracle.

Lemma main_video_id : extract_video_id video_url = py "5zFUBD2rRis".
Proof. vm_compute. reflexivity. Qed.

Lemma get_transcript_preferred (video_id : str) (h : list event) l :
  fetcher h video_id preferred = Fetched l ->
  get_transcript fetcher video_id h =
  (Some (full_transcript l), h ++ [EFetch video_id preferred]).
Proof.
  intros H. unfold get_transcript, bind, fetch. fold preferred.
  rewrite H. reflexivity.
Qed.

Lemma get_transcript_fallback_ok (video_id : str) (h : list event) e l :
  fetcher h video_id preferred = Raised e ->
  fetcher (h ++ [EFetch video_id preferred]) video_id None = Fetched l ->
  get_transcript fetcher video_id h =
  (Some (full_transcript l),
   h ++ [EFetch video_id preferred; EFetch video_id None]).
Proof.
  intros H1 H2. unfold get_transcript, bind, fetch. fold preferred.
  rewrite H1, H2. unfold ret. rewrite <- app_assoc. reflexivity.
Qed.

Lemma get_transcript_absent (video_id : str) (h : list event) e e2 :
  fetcher h video_id preferred = Raised e ->
  fetcher (h ++ [EFetch video_id preferred]) video_id None = Raised e2 ->
  get_transcript fetcher video_id h =
  (None,
   h ++ [EFetch video_id preferred; EFetch video_id None;
         EPrint (py "Error getting transcript: " ++ e2)]).
Proof.
  intros H1 H2. unfold get_transcript, bind, fetch. fold preferred.
  rewrite H1, H2. unfold print, ret. rewrite <- !app_assoc. reflexivity.
Qed.

Lemma get_transcript_none_only (video_id : str) (h : list event) :
  fst (get_transcript fetcher video_id h) = None ->
  exists e e2,
    fetcher h video_id preferred = Raised e /\
    fetcher (h ++ [EFetch video_id preferred]) video_id None = Raised e2.
Proof.
  unfold get_transcript, bind, fetch. fold preferred.
  destruct (fetcher h video_id preferred) as [l | e]; [discriminate|].
  destruct (fetcher (h ++ [EFetch video_id preferred]) video_id None)
    as [l | e2]; [discriminate|].
  intros _. exists e, e2. auto.
Qed.

Lemma get_transcript_fetches (video_id : str) (h : list event) :
  length (fetches (snd (get_transcript fetcher video_id h)))
  <= length (fetches h) + 2.
Proof.
  unfold get_transcript, bind, fetch, print, ret, fetches.
  destruct (fetcher h video_id (Some [py "en"])) as [l | e]; cbn [snd].
  - rewrite flat_map_app, length_app. simpl. lia.
  - destruct (fetcher _ video_id None) as [l | e2]; cbn [snd];
      rewrite !flat_map_app, !length_app; simpl; lia.
Qed.

(** [get_transcript] asks once or twice and writes nothing. *)
Lemma get_transcript_events (video_id : str) (h : list event) :
  exists fs,
    snd (get_transcript fetcher video_id h) = h ++ fs /\
    written fs = [] /\
    (fetches fs = [(video_id, preferred)] \/
     fetches fs = [(video_id, preferred); (video_id, None)]).
Proof.
  unfold get_transcript, bind, fetch, print, ret. fold preferred.
  destruct (fetcher h video_id preferred) as [l | e]; cbn [snd].
  - exists [EFetch video_id preferred]. simpl. auto.
  - destruct (fetcher _ video_id None) as [l | e2]; cbn [snd].
    + exists [EFetch video_id preferred; EFetch video_id None].
      rewrite <- app_assoc. simpl. auto.
    + exists [EFetch video_id preferred; EFetch video_id None;
              EPrint (py "Error getting transcript: " ++ e2)].
      rewrite <- !app_assoc. simpl. auto.
Qed.

Variable storage : disk.

(** The whole run of [main], from what [get_transcript] returned and
    what the file system answers. *)
Lemma main_run (transcript : option str) (fs : list event) :
  get_transcript fetcher (py "5zFUBD2rRis") main_prologue
    = (transcript, main_prologue ++ fs) ->
  main fetcher storage [] =
  if truthy transcript then
    let cleaned := clean_transcript transcript in
    let outline := create_blog_outline cleaned video_url in
    match storage (before_write fs cleaned) output_file outline with
    | None =>
        (Done tt,
         before_write fs cleaned
         ++ EWrite output_file outline :: after_write outline)
    | Some e => (Uncaught e, before_write fs cleaned)
    end
  else
    (Done tt,
     main_prologue ++ fs ++
     [EPrint (py "Could not retrieve transcript. The video may not have captions available.")]).
Proof.
  intros H. unfold main. rewrite main_video_id.
  unfold bind at 1 2 3. unfold print at 1 2 3. cbn [app].
  fold main_prologue. unfold bind at 1. rewrite H.
  destruct (truthy transcript); cbn [negb].
  - cbv zeta. unfold bind at 1 2. unfold print at 1 2.
    unfold bind at 1. unfold write_file.
    assert (before_write fs (clean_transcript transcript) =
            ((main_prologue ++ fs) ++
             [EPrint (py "Transcript length: "
                      ++ str_of_nat (length (clean_transcript transcript))
                      ++ py " characters")]) ++
            [EPrint (py "Creating blog-style outline...")]) as E
      by (unfold before_write; rewrite <- !app_assoc; reflexivity).
    rewrite E.
    destruct (storage _ output_file _); [reflexivity|].
    unfold bind, print, ret, after_write.
    rewrite <- !app_assoc. reflexivity.
  - unfold bind, print, ret. rewrite <- app_assoc. reflexivity.
Qed.

End PipelineFacts.




(** * Further properties *)

(** ** Where a match ends *)

Section MatcherShape.
Context {U : UnicodeDB}.

(** A repetition hands over to its continuation after a run of
    characters of its class. *)
Lemma greedy_suffix (p : char -> bool) (k : cont) :
  forall s prev cap f,
    greedy p prev s cap k = Some f ->
    exists w r q, s = w ++ r /\ forallb p w = true /\ k q r cap = Some f.
Proof.
  induction s as [|x s IH]; intros prev cap f H; simpl in H.
  - exists [], [], prev. auto.
  - destruct (p x) eqn:Px; [|exists [], (x :: s), prev; auto].
    destruct (greedy p (Some x) s cap k) eqn:E;
      [|exists [], (x :: s), prev; auto].
    injection H as <-. apply IH in E as (w & r & q & -> & Hw & Hk).
    exists (x :: w), r, q. simpl. rewrite Px. auto.
Qed.

Lemma lazy_suffix (p : char -> bool) (k : cont) :
  forall s prev cap f,
    lazy p prev s cap k = Some f ->
    exists w r q, s = w ++ r /\ forallb p w = true /\ k q r cap = Some f.
Proof.
  induction s as [|x s IH]; intros prev cap f H; simpl in H.
  - destruct (k prev [] cap) eqn:E; [|discriminate].
    injection H as <-. exists [], [], prev. auto.
  - destruct (k prev (x :: s) cap) eqn:E.
    + injection H as <-. exists [], (x :: s), prev. auto.
    + destruct (p x) eqn:Px; [|discriminate].
      apply IH in H as (w & r & q & -> & Hw & Hk).
      exists (x :: w), r, q. simpl. rewrite Px. auto.
Qed.

(** A continuation that always accepts makes the repetition accept. *)
Lemma greedy_accepts (p : char -> bool) (k : cont) :
  (forall prev s cap, k prev s cap <> None) ->
  forall s prev cap, greedy p prev s cap k <> None.
Proof.
  intros Hk. induction s as [|x s IH]; intros prev cap; simpl; [apply Hk|].
  destruct (p x); [|apply Hk].
  destruct (greedy p (Some x) s cap k) eqn:E; [discriminate|].
  exfalso. apply (IH _ _ E).
Qed.

(** A match ends at a suffix of the subject, where the continuation
    accepted. *)
Lemma run_suffix (r : regex) :
  forall (Q : str -> found -> Prop) (k : cont),
    (forall prev s cap f, k prev s cap = Some f -> Q s f) ->
    forall prev s cap f,
      run r prev s cap k = Some f -> exists a s', s = a ++ s' /\ Q s' f.
Proof.
  induction r as [c | p | r1 IH1 r2 IH2 | r1 IH1 r2 IH2 | p | p | p
                 | r IH | | ]; intros Q k Hk prev s cap f; cbn [run].
  - destruct s as [|x s]; [discriminate|].
    destruct (char_eqb x c); [|discriminate].
    intros H. exists [x], s. split; [reflexivity | eapply Hk, H].
  - destruct s as [|x s]; [discriminate|].
    destruct (p x); [|discriminate].
    intros H. exists [x], s. split; [reflexivity | eapply Hk, H].
  - intros H.
    apply (IH1 (fun t g => exists a s', t = a ++ s' /\ Q s' g)) in H.
    + destruct H as (a1 & t & -> & a2 & s' & -> & HQ).
      exists (a1 ++ a2), s'. rewrite app_assoc. auto.
    + intros prev' t cap' g. apply IH2, Hk.
  - destruct (run r1 prev s cap k) eqn:E.
    + intros [= <-]. eapply IH1; eassumption.
    + apply IH2, Hk.
  - destruct s as [|x s]; [discriminate|].
    destruct (p x); [|discriminate].
    intros H. apply greedy_suffix in H as (w & r & q & -> & _ & H).
    exists (x :: w), r. split; [reflexivity | eapply Hk, H].
  - intros H. apply greedy_suffix in H as (w & r & q & -> & _ & H).
    exists w, r. split; [reflexivity | eapply Hk, H].
  - intros H. apply lazy_suffix in H as (w & r & q & -> & _ & H).
    exists w, r. split; [reflexivity | eapply Hk, H].
  - apply IH. intros prev' s' cap' g. apply Hk.
  - destruct (xorb _ _); [|discriminate].
    intros H. exists [], s. split; [reflexivity | eapply Hk, H].
  - intros H. exists [], s. split; [reflexivity | eapply Hk, H].
Qed.

(** What [X+] followed by nothing but an accepting end consumes. *)
Lemma match_here_Plus (p : char -> bool) (k : cont) prev s cap f :
  run (Plus p) prev s cap k = Some f ->
  exists w r q, s = w ++ r /\ w <> [] /\ forallb p w = true /\
                k q r cap = Some f.
Proof.
  cbn [run]. destruct s as [|x s]; [discriminate|].
  destruct (p x) eqn:Px; [|discriminate].
  intros H. apply greedy_suffix in H as (w & r & q & -> & Hw & H).
  exists (x :: w), r, q. simpl. rewrite Px.
  repeat split; auto. discriminate.
Qed.

Lemma match_here_Plus_none (p : char -> bool) prev x s :
  match_here (Plus p) prev (x :: s) = None -> p x = false.
Proof.
  unfold match_here. cbn [run]. destruct (p x); [|reflexivity].
  intros H. exfalso. revert H. apply greedy_accepts. discriminate.
Qed.

End MatcherShape.

(** ** What a scan keeps *)

Lemma subseq_refl (A : Type) (l : list A) : subseq l l.
Proof.
  induction l; [apply subseq_nil | apply subseq_keep; assumption].
Qed.

Lemma subseq_in (A : Type) (a b : list A) (x : A) :
  subseq a b -> In x a -> In x b.
Proof.
  induction 1 as [|y a b H IH|y a b H IH]; simpl; auto.
  intros [E | Hin]; auto.
Qed.

Lemma subseq_trans (A : Type) (a b c : list A) :
  subseq a b -> subseq b c -> subseq a c.
Proof.
  intros Hab Hbc; revert a Hab.
  induction Hbc as [|y b c H IH|y b c H IH]; intros a Hab.
  - exact Hab.
  - apply subseq_skip, IH, Hab.
  - inversion Hab; subst.
    + apply subseq_skip, IH. assumption.
    + apply subseq_keep, IH. assumption.
Qed.

Lemma subseq_app_l (A : Type) (a b : list A) : subseq b (a ++ b).
Proof.
  induction a; simpl; [apply subseq_refl | apply subseq_skip; assumption].
Qed.

Lemma subseq_app_r (A : Type) (a b : list A) : subseq a (a ++ b).
Proof.
  induction a; simpl; [|apply subseq_keep; assumption].
  induction b; [apply subseq_nil | apply subseq_skip; assumption].
Qed.

Lemma subseq_forallb (A : Type) (f : A -> bool) (a b : list A) :
  subseq a b -> forallb f b = true -> forallb f a = true.
Proof.
  rewrite !forallb_forall. intros H Hb x Hx. eapply Hb, subseq_in; eassumption.
Qed.

Lemma subseq_existsb (A : Type) (f : A -> bool) (a b : list A) :
  subseq a b -> existsb f b = false -> existsb f a = false.
Proof.
  intros H Hb. destruct (existsb f a) eqn:E; [|reflexivity].
  apply existsb_exists in E as [x [Hx Fx]].
  rewrite <- Hb. symmetry. apply existsb_exists.
  exists x. split; [eapply subseq_in; eassumption | exact Fx].
Qed.

Lemma has_span_subseq (o c : char) (a b : str) :
  subseq a b -> has_span o c b = false -> has_span o c a = false.
Proof.
  induction 1 as [|y a b H IH|y a b H IH]; simpl; auto.
  - rewrite orb_false_iff. intros [_ Hb]. auto.
  - rewrite !orb_false_iff. intros [Hy Hb]. split; [|auto].
    destruct (char_eqb y o); [|reflexivity]. simpl in *.
    eapply subseq_existsb; eassumption.
Qed.

Section ScanFacts.
Context {U : UnicodeDB}.

Lemma scan_subseq (r : regex) :
  forall s prev skip, subseq (kept (scan r prev s skip)) s.
Proof.
  induction s as [|x s IH]; intros prev skip; [apply subseq_nil|].
  cbn [scan]. destruct skip as [|n]; [|apply subseq_skip, IH].
  destruct (match_here r prev (x :: s)) as [[cap rest]|].
  - destruct (length (x :: s) - length rest).
    + simpl. apply subseq_keep, IH.
    + simpl. apply subseq_skip, IH.
  - simpl. apply subseq_keep, IH.
Qed.

(** The gaps of a scan stand where the pattern does not match, and the
    hits are the texts it matched. *)
Lemma scan_forall (r : regex) (PG : char -> Prop) (PH : str -> Prop) :
  (forall prev x s, match_here r prev (x :: s) = None -> PG x) ->
  (forall prev s cap rest,
      match_here r prev s = Some (cap, rest) ->
      length rest < length s /\ PH (firstn (length s - length rest) s)) ->
  forall s prev skip, Forall (piece_ok PG PH) (scan r prev s skip).
Proof.
  intros HG HH. induction s as [|x s IH]; intros prev skip; [constructor|].
  cbn [scan]. destruct skip as [|n]; [|apply IH].
  destruct (match_here r prev (x :: s)) as [[cap rest]|] eqn:M.
  - destruct (HH _ _ _ _ M) as [L H].
    destruct (length (x :: s) - length rest) eqn:D; [lia|].
    constructor; [exact H | apply IH].
  - constructor; [eapply HG, M | apply IH].
Qed.

Lemma scan_Plus (p : char -> bool) :
  forall s prev skip,
    Forall (piece_ok (fun c => p c = false)
                     (fun w => w <> [] /\ forallb p w = true))
           (scan (Plus p) prev s skip).
Proof.
  apply scan_forall.
  - intros prev x s. apply match_here_Plus_none.
  - intros prev s cap rest M. unfold match_here in M.
    apply match_here_Plus in M as (w & r & q & -> & Hne & Hw & [= _ <-]).
    rewrite firstn_app_length, length_app.
    split; [|auto]. destruct w; [congruence | simpl; lia].
Qed.

End ScanFacts.

(** ** strip *)

Section StripFacts.
Context {U : UnicodeDB}.

Lemma lstrip_split (s : str) :
  exists h, s = h ++ lstrip s /\ forallb isspace h = true.
Proof.
  induction s as [|x s [h [E H]]]; simpl; [exists []; auto|].
  destruct (isspace x) eqn:X; [|exists []; auto].
  exists (x :: h). simpl. rewrite X, <- E. auto.
Qed.

Lemma lstrip_head (s : str) (c : char) (r : str) :
  lstrip s = c :: r -> isspace c = false.
Proof.
  induction s as [|x s IH]; simpl; [discriminate|].
  destruct (isspace x) eqn:X; [exact IH|]. intros [= <- _]. exact X.
Qed.

Lemma lstrip_all_space (s : str) :
  forallb isspace s = true -> lstrip s = [].
Proof.
  induction s as [|x s IH]; simpl; [reflexivity|].
  destruct (isspace x); [exact IH | discriminate].
Qed.

Lemma lstrip_length (s : str) : length (lstrip s) <= length s.
Proof.
  destruct (lstrip_split s) as [h [E _]]. rewrite E at 2.
  rewrite length_app. lia.
Qed.

(** A string that does not begin with whitespace is left alone, and so
    is every non-empty prefix of it. *)
Lemma lstrip_fixed_prefix (a b : str) :
  lstrip (a ++ b) = a ++ b -> a <> [] -> lstrip a = a.
Proof.
  destruct a as [|x a]; [congruence|]. intros H _. simpl in H |- *.
  destruct (isspace x); [|reflexivity].
  exfalso. pose proof (lstrip_length (a ++ b)) as L.
  rewrite H in L. simpl in L. lia.
Qed.

Lemma lstrip_idem (s : str) : lstrip (lstrip s) = lstrip s.
Proof.
  destruct (lstrip s) as [|c r] eqn:E; [reflexivity|].
  simpl. rewrite (lstrip_head _ _ _ E). reflexivity.
Qed.

Lemma rstrip_split (s : str) :
  exists t, s = rstrip s ++ t /\ forallb isspace t = true.
Proof.
  unfold rstrip. destruct (lstrip_split (rev s)) as [h [E H]].
  exists (rev h). split.
  - rewrite <- rev_app_distr, <- E, rev_involutive. reflexivity.
  - rewrite forallb_forall in *. intros x Hx. apply H, in_rev, Hx.
Qed.

Lemma strip_subseq (s : str) : subseq (strip s) s.
Proof.
  unfold strip.
  destruct (rstrip_split (lstrip s)) as [t [E _]].
  destruct (lstrip_split s) as [h [E' _]].
  rewrite E' at 2. rewrite E at 2.
  eapply subseq_trans; [apply subseq_app_r | apply subseq_app_l].
Qed.

(** Stripping twice is stripping once. *)
Lemma strip_idem (s : str) : strip (strip s) = strip s.
Proof.
  unfold strip, rstrip.
  set (u := lstrip s). set (v := lstrip (rev u)).
  assert (lstrip (rev v) = rev v) as A.
  { destruct v as [|c r] eqn:V; [reflexivity|].
    destruct (lstrip_split (rev u)) as [h [E _]]. fold v in E. rewrite V in E.
    apply (f_equal (@rev char)) in E.
    rewrite rev_involutive, rev_app_distr in E.
    apply (lstrip_fixed_prefix (rev (c :: r)) (rev h)).
    - rewrite <- E. apply lstrip_idem.
    - intros C. apply (f_equal (@length char)) in C.
      rewrite length_rev in C. discriminate. }
  rewrite A, rev_involutive. unfold v. rewrite lstrip_idem. reflexivity.
Qed.

Lemma strip_all_space (s : str) :
  forallb isspace s = true -> strip s = [].
Proof.
  intros H. unfold strip. rewrite (lstrip_all_space _ H). reflexivity.
Qed.

End StripFacts.

(** ** The steps of clean_transcript *)

Section CleanFacts.
Context {U : UnicodeDB}.

(** After the whitespace runs are replaced, a character is the space or
    a character of the subject that is no whitespace. *)
Lemma collapse_chars (s : str) (y : char) :
  In y (re_sub whitespace_run (py " ") s) ->
  y = ch " " \/ (isspace y = false /\ In y s).
Proof.
  unfold re_sub, pieces. intros H.
  apply in_flat_map in H as [pc [Hpc Hy]].
  pose proof (scan_Plus isspace s None 0) as F.
  rewrite Forall_forall in F. specialize (F pc Hpc).
  destruct pc as [c | w]; simpl in Hy.
  - destruct Hy as [<- | []]. right. split; [exact F|].
    apply (subseq_in _ _ _ _ (scan_subseq whitespace_run s None 0)).
    unfold kept. apply in_flat_map. exists (Gap c). simpl. auto.
  - destruct Hy as [<- | []]. left. reflexivity.
Qed.

Lemma collapse_one_line (s : str) :
  forallb dot (re_sub whitespace_run (py " ") s) = true.
Proof.
  apply forallb_forall. intros y H.
  apply collapse_chars in H as [-> | [H _]]; [reflexivity|].
  unfold dot. apply negb_true_iff, N.eqb_neq. intros ->.
  vm_compute in H. discriminate.
Qed.

(** An opening character that is left without a match has no closing
    character after it on its line. *)
Lemma lazy_finds (c : char) :
  forall s prev cap,
    forallb dot s = true -> existsb (char_eqb c) s = true ->
    lazy dot prev s cap
         (fun prev' s' cap' =>
            run (Chr c) prev' s' cap' (fun _ s'' cap'' => Some (cap'', s'')))
    <> None.
Proof.
  induction s as [|x s IH]; intros prev cap Hd He; [discriminate|].
  cbn [lazy run]. simpl in Hd, He.
  apply andb_true_iff in Hd as [Hx Hd].
  destruct (char_eqb x c) eqn:E; [discriminate|]. rewrite Hx.
  apply IH; [exact Hd|].
  unfold char_eqb in *. rewrite N.eqb_sym, E in He. exact He.
Qed.

Lemma span_none (o c : char) prev (s : str) :
  match_here (span_pattern o c) prev (o :: s) = None ->
  forallb dot s = true -> existsb (char_eqb c) s = false.
Proof.
  intros M Hd. destruct (existsb (char_eqb c) s) eqn:E; [|reflexivity].
  exfalso. revert M. unfold match_here, span_pattern. cbn [run].
  unfold char_eqb at 1. rewrite N.eqb_refl.
  apply lazy_finds; assumption.
Qed.

Lemma scan_span (o c : char) :
  forall s prev skip,
    forallb dot s = true ->
    has_span o c (kept (scan (span_pattern o c) prev s skip)) = false.
Proof.
  induction s as [|x s IH]; intros prev skip Hd; [reflexivity|].
  simpl in Hd. apply andb_true_iff in Hd as [Hx Hd].
  cbn [scan]. destruct skip as [|n]; [|apply IH, Hd].
  destruct (match_here (span_pattern o c) prev (x :: s))
    as [[cap rest]|] eqn:M.
  - apply match_here_Chr in M. cbn [snd] in M.
    destruct (length (x :: s) - length rest) eqn:D; [lia|].
    simpl. apply IH, Hd.
  - cbn [kept flat_map app has_span]. fold (kept (scan (span_pattern o c) (Some x) s 0)).
    rewrite (IH _ _ Hd), orb_false_r.
    destruct (char_eqb x o) eqn:E; [|reflexivity]. simpl.
    apply char_eqb_eq in E. subst x.
    apply (subseq_existsb _ _ _ _ (scan_subseq _ s (Some o) 0)).
    apply (span_none _ _ _ _ M Hd).
Qed.

Lemma remove_spans (o c : char) (s : str) :
  forallb dot s = true ->
  has_span o c (re_sub (span_pattern o c) [] s) = false.
Proof. apply scan_span. Qed.

Lemma remove_subseq (r : regex) (s : str) : subseq (re_sub r [] s) s.
Proof. apply scan_subseq. Qed.

(** The four steps, for a transcript that is not empty. *)
Lemma clean_transcript_steps (t : str) :
  t <> [] ->
  exists u1 u2 u3,
    u1 = re_sub whitespace_run (py " ") (strip t) /\
    u2 = re_sub bracketed [] u1 /\
    u3 = re_sub parenthesized [] u2 /\
    clean_transcript (Some t) = strip u3.
Proof. destruct t; [congruence|]. intros _. repeat eexists. Qed.

End CleanFacts.

(** X1.  The result of [clean_transcript] has no whitespace at either
    end: stripping it again changes nothing. *)
Theorem clean_transcript_stripped (U : UnicodeDB) (t : option str) :
  strip (clean_transcript t) = clean_transcript t.
Proof.
  destruct t as [[|x t]|]; try reflexivity.
  destruct (clean_transcript_steps (x :: t) ltac:(discriminate))
    as (u1 & u2 & u3 & _ & _ & _ & ->).
  apply strip_idem.
Qed.

(** X2.  Every character of the result is the space or a character of
    the input that is no whitespace: tabs, line breaks and the other
    whitespace characters are gone, and nothing is invented. *)
Theorem clean_transcript_chars (U : UnicodeDB) (t : str) (y : char) :
  In y (clean_transcript (Some t)) ->
  y = ch " " \/ (isspace y = false /\ In y t).
Proof.
  destruct t as [|x t]; [intros []|].
  destruct (clean_transcript_steps (x :: t) ltac:(discriminate))
    as (u1 & u2 & u3 & E1 & E2 & E3 & ->).
  intros H.
  assert (In y u1) as H1.
  { apply (subseq_in _ _ _ _ (strip_subseq u3)) in H. subst u3 u2.
    apply (subseq_in _ _ _ _ (remove_subseq _ _)) in H.
    apply (subseq_in _ _ _ _ (remove_subseq _ _)) in H. exact H. }
  subst u1. apply collapse_chars in H1 as [-> | [Hs Hin]]; [auto|].
  right. split; [exact Hs|].
  apply (subseq_in _ _ _ _ (strip_subseq _) Hin).
Qed.

Lemma clean_transcript_chars_witness :
  In (ch "b") (@clean_transcript plain_db (Some (py " a [x] b "))) /\
  (ch "b" = ch " " \/
   (@isspace plain_db (ch "b") = false /\ In (ch "b") (py " a [x] b "))).
Proof.
  assert (In (ch "b") (@clean_transcript plain_db (Some (py " a [x] b "))))
    as H by (vm_compute; auto).
  split; [exact H|].
  exact (clean_transcript_chars plain_db (py " a [x] b ") (ch "b") H).
Defined.

(** X3.  The result holds no annotation any more: no [[] is followed by
    a []], and no [(] by a [)]. *)
Theorem clean_transcript_no_spans (U : UnicodeDB) (t : option str) :
  has_span (ch "[") (ch "]") (clean_transcript t) = false /\
  has_span (ch "(") (ch ")") (clean_transcript t) = false.
Proof.
  destruct t as [[|x t]|]; try (split; reflexivity).
  destruct (clean_transcript_steps (x :: t) ltac:(discriminate))
    as (u1 & u2 & u3 & E1 & E2 & E3 & ->).
  assert (forallb dot u1 = true) as D1
    by (subst u1; apply collapse_one_line).
  assert (forallb dot u2 = true) as D2
    by (subst u2; apply (subseq_forallb _ _ _ _ (remove_subseq _ _) D1)).
  assert (has_span (ch "[") (ch "]") u2 = false) as S2
    by (subst u2; apply (remove_spans (ch "[") (ch "]")), D1).
  assert (has_span (ch "(") (ch ")") u3 = false) as S3
    by (subst u3; apply (remove_spans (ch "(") (ch ")")), D2).
  split.
  - apply (has_span_subseq _ _ _ _ (strip_subseq u3)).
    subst u3. apply (has_span_subseq _ _ _ _ (remove_subseq _ _) S2).
  - apply (has_span_subseq _ _ _ _ (strip_subseq u3) S3).
Qed.

(** X4.  A transcript of nothing but whitespace is cleaned to the empty
    string. *)
Theorem clean_transcript_blank (U : UnicodeDB) (t : str) :
  forallb isspace t = true -> clean_transcript (Some t) = [].
Proof.
  intros H. destruct t as [|x t]; [reflexivity|].
  destruct (clean_transcript_steps (x :: t) ltac:(discriminate))
    as (u1 & u2 & u3 & E1 & E2 & E3 & ->).
  rewrite (strip_all_space _ H) in E1. subst. reflexivity.
Qed.

Lemma clean_transcript_blank_witness :
  @clean_transcript plain_db (Some [9; 32; 10; 32]%N) = [].
Proof.
  apply (clean_transcript_blank plain_db [9; 32; 10; 32]%N). reflexivity.
Defined.

(** ** Sentences and paragraphs *)

Lemma join_app (sep : str) (a b : list str) :
  a <> [] -> b <> [] ->
  join sep (a ++ b) = join sep a ++ sep ++ join sep b.
Proof.
  intros Ha Hb. induction a as [|x a IH]; [congruence|].
  destruct a as [|y a].
  - simpl. destruct b; [congruence | reflexivity].
  - change (join sep ((x :: y :: a) ++ b))
      with (x ++ sep ++ join sep ((y :: a) ++ b)).
    rewrite IH by discriminate.
    change (join sep (x :: y :: a)) with (x ++ sep ++ join sep (y :: a)).
    rewrite <- !app_assoc. reflexivity.
Qed.

(** Joining joined groups is joining all their members. *)
Lemma join_groups (sep : str) (gs : list (list str)) :
  Forall (fun g => g <> []) gs ->
  join sep (map (join sep) gs) = join sep (concat gs).
Proof.
  induction 1 as [|g gs Hg Hgs IH]; [reflexivity|].
  destruct gs as [|g' gs].
  - simpl. rewrite app_nil_r. reflexivity.
  - change (join sep (map (join sep) (g :: g' :: gs)))
      with (join sep g ++ sep ++ join sep (map (join sep) (g' :: gs))).
    rewrite IH. cbn [concat].
    rewrite (join_app sep g (g' ++ concat gs)); [reflexivity | exact Hg |].
    apply Forall_inv in Hgs. destruct g'; [congruence | discriminate].
Qed.

Lemma split_pieces_gaps (PG : char -> Prop) (PH : str -> Prop)
    (ps : list piece) :
  Forall (piece_ok PG PH) ps ->
  forall cur, Forall PG cur -> Forall (Forall PG) (split_pieces ps cur).
Proof.
  induction 1 as [|[c | w] ps Hp Hps IH]; intros cur Hcur; simpl.
  - constructor; [exact Hcur | constructor].
  - apply IH. apply Forall_app. split; [exact Hcur|].
    constructor; [exact Hp | constructor].
  - constructor; [exact Hcur|]. apply IH. constructor.
Qed.

(** What a closed group and the groups after it are made of. *)
Lemma chunk_cut (c rest : list str) :
  length c = 4 \/ (rest = [] /\ length c <= 4) ->
  firstn 4 (c ++ rest) = c /\
  forall m, firstn 4 (skipn (4 + m) (c ++ rest)) = firstn 4 (skipn m rest).
Proof.
  intros [L | [-> L]].
  - split.
    + rewrite firstn_app, L, Nat.sub_diag, <- L, firstn_all. simpl.
      apply app_nil_r.
    + intros m. rewrite skipn_app, L.
      rewrite skipn_all2 by lia.
      replace (4 + m - 4) with m by lia. reflexivity.
  - split.
    + rewrite app_nil_r. apply firstn_all2, L.
    + intros m. rewrite app_nil_r, skipn_nil.
      rewrite skipn_all2 by lia. reflexivity.
Qed.

Section GroupFacts.
Context {U : UnicodeDB}.

Lemma group_loop_nth (n : nat) (rest : list str) :
  forall i groups current k,
    i + length rest = n -> length current <= 3 ->
    (rest = [] -> current = []) ->
    nth k (group_loop_lists n i rest groups current) [] =
    if k <? length groups then nth k groups []
    else firstn 4 (skipn (4 * (k - length groups)) (current ++ rest)).
Proof.
  induction rest as [|s rest IH]; intros i groups current k Hi Hc He.
  - rewrite (He eq_refl). cbn [group_loop_lists app].
    destruct (k <? length groups) eqn:K.
    + reflexivity.
    + apply Nat.ltb_ge in K. rewrite skipn_nil, firstn_nil.
      apply nth_overflow, K.
  - cbn [group_loop_lists]. cbn [length] in Hi.
    assert (length (current ++ [s]) = S (length current)) as L
      by (rewrite length_app; simpl; lia).
    replace (current ++ s :: rest) with ((current ++ [s]) ++ rest)
      by (rewrite <- app_assoc; reflexivity).
    destruct ((4 <=? length (current ++ [s])) || (i =? n - 1)) eqn:E.
    + rewrite IH; [|lia | simpl; lia | reflexivity].
      rewrite length_app. cbn [length app].
      assert (length (current ++ [s]) = 4 \/
              (rest = [] /\ length (current ++ [s]) <= 4)) as Cut.
      { apply orb_true_iff in E as [E | E].
        - apply Nat.leb_le in E. left. lia.
        - apply Nat.eqb_eq in E. right. split; [|lia].
          destruct rest; [reflexivity | simpl in Hi; lia]. }
      destruct (chunk_cut _ rest Cut) as [C1 C2].
      destruct (k <? length groups) eqn:K.
      * apply Nat.ltb_lt in K.
        replace (k <? length groups + 1) with true
          by (symmetry; apply Nat.ltb_lt; lia).
        apply app_nth1, K.
      * apply Nat.ltb_ge in K.
        destruct (Nat.eq_dec k (length groups)) as [-> | Nk].
        -- replace (length groups <? length groups + 1) with true
             by (symmetry; apply Nat.ltb_lt; lia).
           rewrite nth_middle, Nat.sub_diag. simpl. symmetry. exact C1.
        -- replace (k <? length groups + 1) with false
             by (symmetry; apply Nat.ltb_ge; lia).
           replace (4 * (k - length groups))
             with (4 + 4 * (k - (length groups + 1))) by lia.
           rewrite C2. reflexivity.
    + apply orb_false_iff in E as [E1 E2].
      apply Nat.leb_gt in E1. apply Nat.eqb_neq in E2.
      apply IH; [lia | lia |].
      intros ->. simpl in Hi. lia.
Qed.

Lemma sentences_of_clean (t : str) :
  Forall (fun s => forallb (fun c => negb (is_sentence_end c)) s = true)
         (sentences_of t).
Proof.
  apply Forall_forall. intros s Hs. unfold sentences_of in Hs.
  apply in_map_iff in Hs as [x [<- Hx]]. apply filter_In in Hx as [Hx _].
  pose proof (split_pieces_gaps _ _ _
                (scan_Plus is_sentence_end t None 0) [] (Forall_nil _)) as F.
  rewrite Forall_forall in F. specialize (F x Hx).
  rewrite Forall_forall in F. apply forallb_forall. intros c Hc.
  apply negb_true_iff, F.
  apply (subseq_in _ _ _ _ (strip_subseq x) Hc).
Qed.

End GroupFacts.

(** X5.  A sentence is not empty, has no whitespace at either end and
    holds none of [.], [!], [?]. *)
Theorem sentences_of_shape (U : UnicodeDB) (t : str) :
  Forall (fun s => s <> [] /\ strip s = s /\
                   forallb (fun c => negb (is_sentence_end c)) s = true)
         (sentences_of t).
Proof.
  pose proof (sentences_of_stripped t) as A.
  pose proof (sentences_of_clean t) as B.
  rewrite Forall_forall in *. intros s Hs.
  destruct (A s Hs) as [Hne [x [_ ->]]].
  split; [exact Hne|]. split; [apply strip_idem | apply B, Hs].
Qed.

(** X6.  The paragraphs hold every sentence once and in order: joined by
    spaces they read as the sentences joined by spaces. *)
Theorem paragraphs_keep_sentences (U : UnicodeDB) (t : str) :
  join (py " ") (paragraphs_of (sentences_of t))
  = join (py " ") (sentences_of t).
Proof.
  rewrite paragraphs_of_groups, join_groups, groups_of_concat;
    [reflexivity|].
  eapply Forall_impl; [|apply group_loop_sizes; [constructor | simpl; lia]].
  intros g [H _] ->. simpl in H. lia.
Qed.


(** ** The words and the bullets *)

Lemma sorted_app_order (A : Type) (R : A -> A -> Prop) (a b : list A)
    (x y : A) :
  StronglySorted R (a ++ b) -> In x a -> In y b -> R x y.
Proof.
  induction a as [|z a IH]; simpl; [tauto|].
  intros H [-> | Hx] Hy; apply StronglySorted_inv in H as [H F].
  - rewrite Forall_forall in F. apply F, in_or_app. auto.
  - apply IH; assumption.
Qed.

Section WordFacts.
Context {U : UnicodeDB}.

Lemma match_here_word prev (s : str) cap rest :
  match_here word_pattern prev s = Some (cap, rest) ->
  exists w, s = w ++ rest /\ w <> [] /\ forallb isword w = true.
Proof.
  unfold match_here, word_pattern.
  change (run (Cat Bnd ?r) prev s None ?k)
    with (if xorb (is_word_at prev) (is_word_at (hd_error s))
          then run r prev s None k else None).
  destruct (xorb _ _); [|discriminate].
  change (run (Cat (Plus isword) Bnd) prev s None ?k)
    with (run (Plus isword) prev s None (fun p t c => run Bnd p t c k)).
  intros H. apply match_here_Plus in H as (w & r & q & -> & Hne & Hw & H).
  cbn [run] in H. destruct (xorb _ _); [|discriminate].
  injection H as _ <-. exists w. auto.
Qed.

(** Every word of the frequency pass is a run of word characters. *)
Lemma words_of_shape (t : str) :
  Forall (fun w => w <> [] /\ forallb isword w = true) (words_of t).
Proof.
  unfold words_of, re_findall, pieces.
  pose proof (scan_forall word_pattern (fun _ => True)
                (fun w => w <> [] /\ forallb isword w = true)) as F.
  apply Forall_forall. intros w Hw.
  apply in_flat_map in Hw as [pc [Hpc Hw]].
  destruct pc as [c | v]; [destruct Hw|]. destruct Hw as [<- | []].
  assert (Forall (piece_ok (fun _ => True)
                    (fun w => w <> [] /\ forallb isword w = true))
                 (scan word_pattern None (lower t) 0)) as G.
  { apply F; [auto|]. intros prev s cap rest M.
    apply match_here_word in M as (w & -> & Hne & Hw).
    rewrite firstn_app_length, length_app.
    split; [|auto]. destruct w; [congruence | simpl; lia]. }
  rewrite Forall_forall in G. apply (G _ Hpc).
Qed.

Lemma takeaways_in (t : str) (x : str * nat) :
  In x (takeaways t) ->
  In x (word_freq_of (words_of t)) /\ 2 < snd x.
Proof.
  intros H. apply filter_In in H as [H L]. apply Nat.ltb_lt in L.
  split; [|exact L]. apply in_firstn in H.
  apply (Permutation_in _
           (Permutation_sym (srt_perm _ sorted_by_count_contract _)) H).
Qed.

End WordFacts.


(** X9.  The entries considered for bullets are those with the largest
    counts: an entry of the dictionary that is not among them has no
    larger count than any that is. *)
Theorem top_words_largest (U : UnicodeDB) (t : str) (x y : str * nat) :
  In x (top_words t) ->
  In y (word_freq_of (words_of t)) ->
  ~ In y (top_words t) ->
  snd y <= snd x.
Proof.
  intros Hx Hy Ny.
  pose proof (srt_sorted _ sorted_by_count_contract
                (word_freq_of (words_of t))) as S.
  pose proof (srt_perm _ sorted_by_count_contract
                (word_freq_of (words_of t))) as P.
  rewrite <- (firstn_skipn 10 (sorted_by_count _)) in S, P.
  apply (Permutation_in _ P) in Hy.
  apply in_app_or in Hy as [Hy | Hy]; [contradiction|].
  apply (sorted_app_order _ _ _ _ _ _ S Hx Hy).
Qed.

Lemma top_words_largest_witness :
  let t := py "aaaaa aaaaa bbbbb ccccc ddddd eeeee fffff ggggg hhhhh iiiii jjjjj kkkkk" in
  In (py "jjjjj", 1) (@top_words plain_db t) /\
  In (py "kkkkk", 1) (word_freq_of (@words_of plain_db t)) /\
  ~ In (py "kkkkk", 1) (@top_words plain_db t) /\
  1 <= 1.
Proof.
  set (t := py "aaaaa aaaaa bbbbb ccccc ddddd eeeee fffff ggggg hhhhh iiiii jjjjj kkkkk").
  cbv zeta.
  assert (In (py "jjjjj", 1) (@top_words plain_db t)) as H1
    by (vm_compute; tauto).
  assert (In (py "kkkkk", 1) (word_freq_of (@words_of plain_db t))) as H2
    by (vm_compute; tauto).
  assert (~ In (py "kkkkk", 1) (@top_words plain_db t)) as H3.
  { vm_compute. intros H.
    repeat (destruct H as [H | H]; [discriminate H|]). exact H. }
  repeat split; try assumption.
  exact (top_words_largest plain_db t _ _ H1 H2 H3).
Defined.

(** X10.  With at most ten different words longer than 4 characters,
    none is passed over: the bullets are exactly the entries of the
    dictionary with a count above 2. *)
Theorem takeaways_complete (U : UnicodeDB) (t : str) (x : str * nat) :
  length (word_freq_of (words_of t)) <= 10 ->
  (In x (takeaways t) <->
   In x (word_freq_of (words_of t)) /\ 2 < snd x).
Proof.
  intros L. split; [apply takeaways_in|].
  intros [H C]. unfold takeaways, takeaways_with, top_words_with.
  apply filter_In. split; [|apply Nat.ltb_lt, C].
  pose proof (srt_perm _ sorted_by_count_contract
                (word_freq_of (words_of t))) as P.
  rewrite firstn_all2 by (rewrite <- (Permutation_length P); exact L).
  apply (Permutation_in _ P H).
Qed.

Lemma takeaways_complete_witness :
  let t := py "alpha alpha alpha beta beta gamma" in
  length (word_freq_of (@words_of plain_db t)) <= 10 /\
  (In (py "alpha", 3) (@takeaways plain_db t) <->
   In (py "alpha", 3) (word_freq_of (@words_of plain_db t)) /\ 2 < 3).
Proof.
  set (t := py "alpha alpha alpha beta beta gamma"). cbv zeta.
  assert (length (word_freq_of (@words_of plain_db t)) <= 10) as L
    by (vm_compute; lia).
  split; [exact L|].
  exact (takeaways_complete plain_db t (py "alpha", 3) L).
Defined.

(** ** More on extract_video_id *)

Lemma starts_with_app (w t : str) : starts_with w (w ++ t) = true.
Proof.
  induction w as [|c w IH]; simpl; [reflexivity|].
  unfold char_eqb; rewrite N.eqb_refl; exact IH.
Qed.

Lemma contains_intro (a w b : str) : contains w (a ++ w ++ b) = true.
Proof.
  induction a as [|x a IH]; simpl app.
  - destruct (w ++ b) eqn:E; simpl; rewrite <- E, starts_with_app;
      reflexivity.
  - simpl. rewrite IH. apply orb_true_r.
Qed.

Lemma starts_with_forallb (P : char -> bool) (w s : str) :
  starts_with w s = true -> forallb P s = true -> forallb P w = true.
Proof.
  revert s; induction w as [|c w IH]; intros [|x s]; simpl; try congruence.
  rewrite !andb_true_iff. intros [E H] [Px Ps].
  apply char_eqb_eq in E. subst x. split; [exact Px | eapply IH; eassumption].
Qed.

(** A word with a character outside a class does not occur in a string
    over the class. *)
Lemma contains_outside (P : char -> bool) (w s : str) :
  forallb P w = false -> forallb P s = true -> contains w s = false.
Proof.
  intros Hw. induction s as [|x s IH]; intros Hs.
  - simpl. rewrite orb_false_r. destruct (starts_with w []) eqn:E; [|auto].
    rewrite (starts_with_forallb P _ _ E Hs) in Hw. discriminate.
  - simpl. rewrite orb_false_iff. split.
    + destruct (starts_with w (x :: s)) eqn:E; [|auto].
      rewrite (starts_with_forallb P _ _ E Hs) in Hw. discriminate.
    + apply IH. simpl in Hs. apply andb_true_iff in Hs. tauto.
Qed.

(** A repetition that finds its continuation failing at every later
    place gives back down to where it started. *)
Lemma greedy_gives_back (p : char -> bool) (k : cont) :
  forall s prev cap,
    (forall s1 s2 q, s = s1 ++ s2 -> s1 <> [] -> k q s2 cap = None) ->
    greedy p prev s cap k = k prev s cap.
Proof.
  induction s as [|x s IH]; intros prev cap H; [reflexivity|].
  simpl. destruct (p x); [|reflexivity].
  rewrite IH.
  - rewrite (H [x] s (Some x) eq_refl ltac:(discriminate)). reflexivity.
  - intros s1 s2 q -> N. apply (H (x :: s1) s2 q); [reflexivity | discriminate].
Qed.

Lemma greedy_backtrack (p : char -> bool) (k : cont) (a b : str) f :
  forall prev cap,
    forallb p a = true ->
    (forall s1 s2 q, b = s1 ++ s2 -> s1 <> [] -> k q s2 cap = None) ->
    k (prev_after a prev) b cap = Some f ->
    greedy p prev (a ++ b) cap k = Some f.
Proof.
  induction a as [|x a IH]; intros prev cap Ha Hb Hk.
  - simpl in *. rewrite greedy_gives_back; assumption.
  - simpl in Ha. apply andb_true_iff in Ha as [Hx Ha].
    simpl. rewrite Hx, (IH (Some x) cap Ha Hb Hk). reflexivity.
Qed.

Section ExtractShape.
Context {U : UnicodeDB}.

Lemma group_shape prev (t : str) cap f :
  run (Grp (Plus id_char)) prev t cap (fun _ s' cap' => Some (cap', s'))
    = Some f ->
  exists g r, t = g ++ r /\ g <> [] /\ forallb id_char g = true /\
              f = (Some g, r).
Proof.
  cbn [run]. destruct t as [|x t]; [discriminate|].
  destruct (id_char x) eqn:X; [|discriminate].
  intros H. apply greedy_suffix in H as (w & r & q & -> & Hw & [= <-]).
  exists (x :: w), r.
  split; [reflexivity|]. split; [discriminate|].
  split; [simpl; rewrite X; exact Hw|].
  f_equal. f_equal.
  change (firstn (length ((x :: w) ++ r) - length r) ((x :: w) ++ r)
          = x :: w).
  apply firstn_app_length.
Qed.

Lemma cat_group_inside (r R : regex) :
  (forall prev s cap f,
      run R prev s cap (fun _ s' cap' => Some (cap', s')) = Some f ->
      group_inside s f) ->
  forall prev s cap f,
    run (Cat r R) prev s cap (fun _ s' cap' => Some (cap', s')) = Some f ->
    group_inside s f.
Proof.
  intros HR prev s cap f H.
  change (run (Cat r R) prev s cap ?k)
    with (run r prev s cap (fun p t c => run R p t c k)) in H.
  apply (run_suffix r group_inside) in H; [|exact HR].
  destruct H as (a0 & s' & -> & a & g & rest & -> & Hne & Hg & Hf).
  exists (a0 ++ a), g, rest. rewrite app_assoc. auto.
Qed.

Lemma patterns_group_inside (pattern : regex) prev s f :
  In pattern patterns -> match_here pattern prev s = Some f ->
  group_inside s f.
Proof.
  assert (forall prev s cap f,
             run (Grp (Plus id_char)) prev s cap
                 (fun _ s' cap' => Some (cap', s')) = Some f ->
             group_inside s f) as G.
  { intros p t c g H. apply group_shape in H as (w & r & -> & Hne & Hw & ->).
    exists [], w, r. auto. }
  intros [<- | [<- | []]]; unfold match_here, pattern1, pattern2.
  - apply cat_group_inside, G.
  - apply cat_group_inside, cat_group_inside, cat_group_inside, G.
Qed.

Lemma search_from_found (r : regex) :
  forall s prev m,
    search_from r prev s = Some m ->
    exists b s2 q f, s = b ++ s2 /\ match_here r q s2 = Some f /\ fst f = m.
Proof.
  induction s as [|x s IH]; intros prev m; cbn [search_from].
  - destruct (match_here r prev []) as [[cap rest]|] eqn:M; [|discriminate].
    intros [= <-]. exists [], [], prev, (cap, rest). auto.
  - destruct (match_here r prev (x :: s)) as [[cap rest]|] eqn:M.
    + intros [= <-]. exists [], (x :: s), prev, (cap, rest). auto.
    + intros H. apply IH in H as (b & s2 & q & f & -> & H & E).
      exists (x :: b), s2, q, f. auto.
Qed.

Lemma first_match_found (ps : list regex) (url id : str) :
  (forall pattern, In pattern ps -> In pattern patterns) ->
  first_match ps url = Some id ->
  id <> [] /\ forallb id_char id = true /\ contains id url = true.
Proof.
  induction ps as [|pattern ps IH]; intros Hin; [discriminate|].
  cbn [first_match]. destruct (re_search pattern url) as [m|] eqn:S.
  - intros [= <-]. apply search_from_found in S
      as (b & s2 & q & f & -> & M & <-).
    apply patterns_group_inside in M; [|apply Hin; left; reflexivity].
    destruct M as (a & g & r & -> & Hne & Hg & ->). simpl.
    repeat split; auto.
    rewrite app_assoc. apply contains_intro.
  - apply IH. intros p Hp. apply Hin. right; exact Hp.
Qed.

End ExtractShape.

(** X11.  Whatever the input, the result is the input itself or a
    non-empty piece of it without [&], [?], [#] and line break. *)
Theorem extract_video_id_shape (U : UnicodeDB) (url : str) :
  extract_video_id url = url \/
  (extract_video_id url <> [] /\
   forallb id_char (extract_video_id url) = true /\
   contains (extract_video_id url) url = true).
Proof.
  unfold extract_video_id.
  destruct (first_match patterns url) as [id|] eqn:E; [|left; reflexivity].
  right. apply (first_match_found patterns url id); auto.
Qed.

(** X12.  An input without [/], a bare identifier for one, is returned
    as it is. *)
Theorem extract_video_id_bare (U : UnicodeDB) (s : str) :
  forallb (fun c => negb (char_eqb c (ch "/"))) s = true ->
  extract_video_id s = s.
Proof.
  intros H.
  apply extract_unrecognized;
    apply (contains_outside (fun c => negb (char_eqb c (ch "/"))));
    solve [reflexivity | exact H].
Qed.

Lemma extract_video_id_bare_witness :
  @extract_video_id plain_db (py "dQw4w9WgXcQ") = py "dQw4w9WgXcQ".
Proof.
  apply (extract_video_id_bare plain_db (py "dQw4w9WgXcQ")). reflexivity.
Defined.

Lemma skipn_app_length (A : Type) (a b : list A) :
  skipn (length a) (a ++ b) = b.
Proof. induction a; simpl; auto. Qed.

(** An identifier followed by the rest of a query holds no [v=] unless
    the rest does. *)
Lemma no_v_parameter (w suf : str) :
  forallb ident_char w = true -> ends_ident suf = true ->
  contains (py "v=") suf = false ->
  contains (py "v=") (w ++ suf) = false.
Proof.
  intros Hw Hsuf Hc. induction w as [|x w IH]; [exact Hc|].
  simpl in Hw. apply andb_true_iff in Hw as [Hx Hw].
  cbn [app contains]. rewrite (IH Hw), orb_false_r.
  change (starts_with (py "v=") (x :: w ++ suf))
    with (char_eqb x (ch "v") && starts_with (py "=") (w ++ suf)).
  apply andb_false_iff. right.
  destruct w as [|c w]; [destruct suf as [|c suf]|]; try reflexivity.
  - cbn [app]. change (starts_with (py "=") (c :: suf))
      with (char_eqb c (ch "=") && true).
    rewrite andb_true_r. destruct (char_eqb c (ch "=")) eqn:E; [|reflexivity].
    apply char_eqb_eq in E. subst c. vm_compute in Hsuf. discriminate.
  - cbn [app]. change (starts_with (py "=") (c :: w ++ suf))
      with (char_eqb c (ch "=") && true).
    rewrite andb_true_r. destruct (char_eqb c (ch "=")) eqn:E; [|reflexivity].
    cbn [forallb] in Hw. apply andb_true_iff in Hw as [Hc' _].
    apply char_eqb_eq in E. subst c. vm_compute in Hc'. discriminate.
Qed.

Section SecondPattern.
Context {U : UnicodeDB}.

Lemma run_Cat (r1 r2 : regex) prev s cap (k : cont) :
  run (Cat r1 r2) prev s cap k =
  run r1 prev s cap (fun p t c => run r2 p t c k).
Proof. reflexivity. Qed.

Lemma run_Lit_app (w rest : str) prev cap (k : cont) :
  run (Lit w) prev (w ++ rest) cap k = k (prev_after w prev) rest cap.
Proof. rewrite run_Lit, starts_with_app, skipn_app_length. reflexivity. Qed.

(** The second pattern at a [youtube.com/watch?]: it takes the last
    [v=] of the line that an identifier follows. *)
Lemma match_pattern2_hit (mid w suf : str) prev :
  forallb dot mid = true ->
  w <> [] -> forallb ident_char w = true ->
  ends_ident suf = true -> contains (py "v=") suf = false ->
  match_here pattern2 prev (watch_q ++ mid ++ py "v=" ++ w ++ suf)
  = Some (Some w, suf).
Proof.
  intros Hmid Hne Hw Hsuf Hv. unfold match_here, pattern2.
  rewrite run_Cat, run_Lit_app, run_Cat.
  change (run (Star dot) ?p ?s ?c ?k) with (greedy dot p s c k).
  apply greedy_backtrack; [exact Hmid | |].
  - intros s1 s2 q E N. rewrite run_Cat, run_Lit.
    replace (starts_with (py "v=") s2) with false; [reflexivity|].
    symmetry. destruct s1 as [|x1 [|x2 s1]]; [congruence | |].
    + injection E as _ <-. reflexivity.
    + injection E as _ _ E.
      pose proof (no_v_parameter w suf Hw Hsuf Hv) as C. rewrite E in C.
      apply contains_here, (contains_suffix _ _ _ C).
  - rewrite run_Cat, run_Lit_app.
    apply id_group_takes; [exact Hne | apply forallb_ident_id, Hw | exact Hsuf].
Qed.

Lemma extract_second_pattern (pre mid w suf : str) :
  let url := pre ++ watch_q ++ mid ++ py "v=" ++ w ++ suf in
  contains watch_v url = false -> contains youtu_be url = false ->
  contains embed url = false ->
  contains watch_q pre = false ->
  forallb dot mid = true ->
  w <> [] -> forallb ident_char w = true ->
  ends_ident suf = true -> contains (py "v=") suf = false ->
  extract_video_id url = w.
Proof.
  intros url H1 H2 H3 Hpre Hmid Hne Hw Hsuf Hv.
  unfold extract_video_id, patterns. cbn [first_match]. unfold re_search.
  assert (forall m s1 s2, contains m url = false -> url = s1 ++ s2 ->
                          starts_with m s2 = false) as N.
  { intros m s1 s2 H E. rewrite E in H.
    apply contains_here, (contains_suffix _ _ _ H). }
  rewrite search_from_none.
  2:{ intros s1 s2 q E. apply match_pattern1_none; eapply N; eassumption. }
  unfold url. rewrite search_from_skip.
  - destruct (watch_q ++ mid ++ py "v=" ++ w ++ suf) as [|x t] eqn:E;
      cbn [search_from];
      rewrite <- E, (match_pattern2_hit mid w suf _ Hmid Hne Hw Hsuf Hv);
      reflexivity.
  - intros p1 p2 q -> Hp2. apply match_pattern2_none.
    destruct (starts_with watch_q _) eqn:E; [|reflexivity].
    destruct p2 as [|x p2]; [congruence|].
    apply (starts_with_tail_before (ch "y") watch_q x p2
             (py "outube.com/watch?" ++ mid ++ py "v=" ++ w ++ suf)) in E;
      [|reflexivity].
    rewrite (contains_here _ _ (contains_suffix _ _ _ Hpre)) in E.
    discriminate.
Qed.

End SecondPattern.

(** X13.  A watch url whose [v] parameter is not the first one: in
    [pre ++ "youtube.com/watch?" ++ mid ++ "v=" ++ I ++ suf], with no
    url shape of the first pattern anywhere, no [youtube.com/watch?] in
    [pre], no line break in [mid], an identifier [I] over the
    alphanumerics, [_] and [-], and a rest [suf] without a further [v=]
    that is empty or begins with [&], [?], [#] or a line break, the
    result is [I]. *)
Theorem extract_video_id_second_pattern (U : UnicodeDB)
    (pre mid I suf : str) :
  let url := pre ++ py "youtube.com/watch?" ++ mid ++ py "v=" ++ I ++ suf in
  contains (py "youtube.com/watch?v=") url = false ->
  contains (py "youtu.be/") url = false ->
  contains (py "youtube.com/embed/") url = false ->
  contains (py "youtube.com/watch?") pre = false ->
  forallb dot mid = true ->
  I <> [] -> forallb ident_char I = true ->
  ends_ident suf = true -> contains (py "v=") suf = false ->
  extract_video_id url = I.
Proof. apply extract_second_pattern. Qed.

Lemma extract_video_id_second_pattern_witness :
  @extract_video_id plain_db
     (py "https://www.youtube.com/watch?feature=share&v=5zFUBD2rRis&t=42s")
  = py "5zFUBD2rRis".
Proof.
  apply (extract_video_id_second_pattern plain_db
           (py "https://www.") (py "feature=share&") (py "5zFUBD2rRis")
           (py "&t=42s")); try reflexivity.
  discriminate.
Defined.

(** ** The run of main *)


(** ** The length of the cleaned transcript *)

Lemma subseq_length (A : Type) (a b : list A) :
  subseq a b -> length a <= length b.
Proof. induction 1; simpl; lia. Qed.

(** A replacement of at most one character never makes the subject
    longer: every position gives at most one character. *)
Lemma re_sub_length {U : UnicodeDB} (r : regex) (repl : str) :
  length repl <= 1 ->
  forall s, length (re_sub r repl s) <= length s.
Proof.
  intros Hr s. unfold re_sub, pieces. generalize (@None char), 0.
  induction s as [|x s IH]; intros prev skip; [simpl; lia|].
  cbn [scan]. destruct skip as [|n].
  - destruct (match_here r prev (x :: s)) as [[cap rest]|].
    + destruct (length (x :: s) - length rest); cbn [flat_map];
        rewrite length_app; specialize (IH (Some x)); simpl.
      * specialize (IH 0). lia.
      * specialize (IH n). lia.
    + cbn [flat_map]. rewrite length_app. specialize (IH (Some x) 0).
      simpl. lia.
  - specialize (IH (Some x) n). simpl. lia.
Qed.

(** X15.  Cleaning never makes a transcript longer. *)
Theorem clean_transcript_length (U : UnicodeDB) (t : str) :
  length (clean_transcript (Some t)) <= length t.
Proof.
  destruct t as [|x t]; [simpl; lia|].
  destruct (clean_transcript_steps (x :: t) ltac:(discriminate))
    as (u1 & u2 & u3 & E1 & E2 & E3 & ->).
  pose proof (subseq_length _ _ _ (strip_subseq u3)) as L4.
  pose proof (subseq_length _ _ _ (strip_subseq (x :: t))) as L0.
  assert (length u3 <= length u2) as L3
    by (subst u3; apply re_sub_length; simpl; lia).
  assert (length u2 <= length u1) as L2
    by (subst u2; apply re_sub_length; simpl; lia).
  assert (length u1 <= length (strip (x :: t))) as L1
    by (subst u1; apply re_sub_length; simpl; lia).
  lia.
Qed.
